(** * A shallow embedding of [schema.py] (version 0.4.2)

    The development follows the layout of the Python module:

    - [Py]: the fragment of the Python 3 runtime the module relies on
      (values, runtime types, [repr], [==], hashing, truthiness, [sorted],
      the builtin [int]);
    - the schema descriptions, [SchemaError] and its [code] property;
    - [_priority], [Schema.validate], [And.validate], [Or.validate],
      [Use.validate], [Optional.__init__];
    - the properties of the module. *)

From Stdlib Require Import List String Ascii Bool ZArith QArith Lia.
From Stdlib Require Import DecimalString Permutation Sorted.
Import ListNotations.
Open Scope string_scope.
Open Scope Z_scope.

Set Implicit Arguments.
Set Warnings "-register-all".

(* ================================================================== *)
(** * The Python runtime fragment *)
(* ================================================================== *)

Module Py.

(** Literals that are neither containers, types, callables nor objects
    with a [validate] attribute. *)
Inductive atom : Type :=
| ANone
| ABool (b : bool)
| AInt (z : Z)
| AStr (s : string).

(** Runtime values.  A [dict] keeps its items in insertion order.  A Python
    [str] is a sequence of code points; the model covers the code points
    below 256, one per [ascii].  Floats, bytes, sets and user-defined
    objects are left out, and so is the interpreter's limit on the number
    of digits of an [int] that is printed or parsed. *)
Inductive value : Type :=
| VAtom (a : atom)
| VList (l : list value)
| VTuple (l : list value)
| VDict (items : list (value * value)).

Coercion VAtom : atom >-> value.

Definition VNone : value := VAtom ANone.
Definition VBool (b : bool) : value := VAtom (ABool b).
Definition VInt (z : Z) : value := VAtom (AInt z).
Definition VStr (s : string) : value := VAtom (AStr s).

(** Type objects. *)
Inductive pytype : Type :=
| TObject | TNoneType | TBool | TInt | TStr | TList | TTuple | TDict.

Definition type_name (t : pytype) : string :=
  match t with
  | TObject => "object" | TNoneType => "NoneType" | TBool => "bool"
  | TInt => "int" | TStr => "str" | TList => "list" | TTuple => "tuple"
  | TDict => "dict"
  end.

Definition type_of (v : value) : pytype :=
  match v with
  | VAtom ANone => TNoneType
  | VAtom (ABool _) => TBool
  | VAtom (AInt _) => TInt
  | VAtom (AStr _) => TStr
  | VList _ => TList
  | VTuple _ => TTuple
  | VDict _ => TDict
  end.

Definition pytype_eqb (a b : pytype) : bool :=
  match a, b with
  | TObject, TObject | TNoneType, TNoneType | TBool, TBool | TInt, TInt
  | TStr, TStr | TList, TList | TTuple, TTuple | TDict, TDict => true
  | _, _ => false
  end.

(** [issubclass(a, b)]: every type derives from [object], and [bool] from
    [int]. *)
Definition issubclass (a b : pytype) : bool :=
  match b with
  | TObject => true
  | TInt => match a with TInt | TBool => true | _ => false end
  | _ => pytype_eqb a b
  end.

Definition isinstance (v : value) (t : pytype) : bool :=
  issubclass (type_of v) t.

(** ** Strings *)

Fixpoint join (sep : string) (l : list string) : string :=
  match l with
  | [] => ""
  | [x] => x
  | x :: r => x ++ sep ++ join sep r
  end.

Definition nl : string := String (ascii_of_nat 10) "".

Fixpoint str_mem (c : ascii) (s : string) : bool :=
  match s with
  | EmptyString => false
  | String d r => Ascii.eqb c d || str_mem c r
  end.

Definition hex_digit (n : nat) : ascii :=
  nth n (list_ascii_of_string "0123456789abcdef") "0"%char.

Definition hex_escape (c : ascii) : string :=
  let n := nat_of_ascii c in
  String "\" (String "x" (String (hex_digit (Nat.div n 16))
                                   (String (hex_digit (Nat.modulo n 16)) ""))).

(** [str.isprintable] on one code point below 256. *)
Definition printable (c : ascii) : bool :=
  let n := nat_of_ascii c in
  ((32 <=? n) && (n <? 127) || (161 <=? n) && negb (n =? 173))%nat.

Definition repr_char (quote c : ascii) : string :=
  let n := nat_of_ascii c in
  if Ascii.eqb c quote || Ascii.eqb c "\" then String "\" (String c "")
  else if (n =? 9)%nat then "\t"
  else if (n =? 10)%nat then "\n"
  else if (n =? 13)%nat then "\r"
  else if printable c then String c ""
  else hex_escape c.

Fixpoint repr_chars (quote : ascii) (s : string) : string :=
  match s with
  | EmptyString => ""
  | String c r => repr_char quote c ++ repr_chars quote r
  end.

(** [repr] of a [str]: single quotes, unless the text holds a single quote
    and no double quote. *)
Definition dquote : ascii := ascii_of_nat 34.

Definition repr_str (s : string) : string :=
  let quote :=
    if str_mem "'" s && negb (str_mem dquote s) then dquote else "'"%char in
  String quote (repr_chars quote s ++ String quote "").

Definition repr_int (z : Z) : string := NilZero.string_of_int (Z.to_int z).

Definition repr_atom (a : atom) : string :=
  match a with
  | ANone => "None"
  | ABool true => "True"
  | ABool false => "False"
  | AInt z => repr_int z
  | AStr s => repr_str s
  end.

Definition repr_tuple (parts : list string) : string :=
  match parts with
  | [x] => "(" ++ x ++ ",)"
  | _ => "(" ++ join ", " parts ++ ")"
  end.

Definition repr_item (kv : string * string) : string :=
  fst kv ++ ": " ++ snd kv.

Fixpoint repr (v : value) : string :=
  match v with
  | VAtom a => repr_atom a
  | VList l => "[" ++ join ", " (map repr l) ++ "]"
  | VTuple l => repr_tuple (map repr l)
  | VDict items =>
      "{" ++ join ", " (map (fun kv : value * value =>
                              let (k, x) := kv in repr_item (repr k, repr x))
                           items) ++ "}"
  end.

(** ** Equality, truth, hashing *)

Definition atom_eq (a b : atom) : bool :=
  match a, b with
  | ANone, ANone => true
  | ABool x, ABool y => Bool.eqb x y
  | AInt x, AInt y => x =? y
  | ABool x, AInt y | AInt y, ABool x => (if x then 1 else 0) =? y
  | AStr x, AStr y => String.eqb x y
  | _, _ => false
  end.

(** [a == b].  Two dicts are equal when they have as many items and every
    item of the first has its key in the second under an equal value. *)
Fixpoint py_eq (a b : value) {struct a} : bool :=
  match a, b with
  | VAtom x, VAtom y => atom_eq x y
  | VList l1, VList l2 =>
      (fix go (l1 l2 : list value) : bool :=
         match l1, l2 with
         | [], [] => true
         | x :: r1, y :: r2 => py_eq x y && go r1 r2
         | _, _ => false
         end) l1 l2
  | VTuple l1, VTuple l2 =>
      (fix go (l1 l2 : list value) : bool :=
         match l1, l2 with
         | [], [] => true
         | x :: r1, y :: r2 => py_eq x y && go r1 r2
         | _, _ => false
         end) l1 l2
  | VDict i1, VDict i2 =>
      (List.length i1 =? List.length i2)%nat &&
      (fix all (i1 : list (value * value)) : bool :=
         match i1 with
         | [] => true
         | (k, x) :: r =>
             existsb (fun kv => py_eq k (fst kv) && py_eq x (snd kv)) i2
             && all r
         end) i1
  | _, _ => false
  end.

(** [bool(v)]. *)
Definition truthy (v : value) : bool :=
  match v with
  | VAtom ANone => false
  | VAtom (ABool b) => b
  | VAtom (AInt z) => negb (z =? 0)
  | VAtom (AStr s) => negb (String.eqb s "")
  | VList l | VTuple l => match l with [] => false | _ => true end
  | VDict i => match i with [] => false | _ => true end
  end.

(** The name of the first unhashable type [hash(v)] meets, if any. *)
Fixpoint unhashable (v : value) : option string :=
  match v with
  | VAtom _ => None
  | VList _ => Some "list"
  | VDict _ => Some "dict"
  | VTuple l =>
      (fix first (l : list value) : option string :=
         match l with
         | [] => None
         | x :: r => match unhashable x with
                     | Some t => Some t
                     | None => first r
                     end
         end) l
  end.

(** ** Exceptions other than [SchemaError] *)

Record pyexn : Type := mkExn { exn_type : string; exn_args : list value }.

Definition repr_exn (x : pyexn) : string :=
  exn_type x ++ "(" ++ join ", " (map repr (exn_args x)) ++ ")".

Definition TypeError (msg : string) : pyexn := mkExn "TypeError" [VStr msg].
Definition ValueError (msg : string) : pyexn := mkExn "ValueError" [VStr msg].

(** ** Dict and set operations *)

Definition dict : Type := list (value * value).

Fixpoint dict_mem (k : value) (d : dict) : bool :=
  match d with
  | [] => false
  | (k', _) :: r => py_eq k' k || dict_mem k r
  end.

(** [d[k] = v] on a hashable key: an existing key keeps its place and its
    key object. *)
Fixpoint dict_set (d : dict) (k v : value) : dict :=
  match d with
  | [] => [(k, v)]
  | (k', v') :: r => if py_eq k' k then (k', v) :: r
                     else (k', v') :: dict_set r k v
  end.

Definition keys (d : dict) : list value := map fst d.

(** ** [sorted]: a stable sort by key *)

Section Sorted.
Variables A K : Type.
Variable leb : K -> K -> bool.
Variable key : A -> K.

Fixpoint insert_sorted (x : A) (l : list A) : list A :=
  match l with
  | [] => [x]
  | y :: r => if leb (key x) (key y) then x :: y :: r
              else y :: insert_sorted x r
  end.

Definition sorted (l : list A) : list A :=
  fold_right insert_sorted [] l.
End Sorted.

(** ** The builtin [int] *)

(** The white space [int] skips around a decimal text. *)
Definition is_space (c : ascii) : bool :=
  let n := nat_of_ascii c in
  ((9 <=? n) && (n <=? 13) || (n =? 32) || (n =? 133) || (n =? 160))%nat.

Fixpoint lstrip (s : string) : string :=
  match s with
  | String c r => if is_space c then lstrip r else s
  | EmptyString => s
  end.

Fixpoint rev_string (acc s : string) : string :=
  match s with
  | EmptyString => acc
  | String c r => rev_string (String c acc) r
  end.

Definition strip (s : string) : string :=
  rev_string "" (lstrip (rev_string "" (lstrip s))).

Definition digit_of (c : ascii) : option Z :=
  let n := nat_of_ascii c in
  if ((48 <=? n) && (n <=? 57))%nat then Some (Z.of_nat n - 48) else None.

(** Decimal digits, single underscores allowed between two digits.
    [prev] tells whether the previous character was a digit. *)
Fixpoint parse_digits (acc : Z) (prev : bool) (s : string) : option Z :=
  match s with
  | EmptyString => if prev then Some acc else None
  | String c r =>
      match digit_of c with
      | Some d => parse_digits (10 * acc + d) true r
      | None => if Ascii.eqb c "_" && prev then parse_digits acc false r
                else None
      end
  end.

Definition parse_int (s : string) : option Z :=
  match strip s with
  | String "-" r => option_map Z.opp (parse_digits 0 false r)
  | String "+" r => parse_digits 0 false r
  | r => parse_digits 0 false r
  end.

End Py.

Import Py.

(* ================================================================== *)
(** * Errors and outcomes *)
(* ================================================================== *)

(** The attributes of a [SchemaError].  [K] is the type of schema keys
    ([missing_keys] holds the schema's own key objects). *)
Record SchemaError_ (K : Type) : Type := mkSchemaError {
  autos : list (option string);
  errors : list (option string);
  missing_keys : option (list K);
  invalid_keys : option (list value);
  wrong_keys : option (list value)
}.

Arguments mkSchemaError {K} _ _ _ _ _.
Arguments autos {K} _.
Arguments errors {K} _.
Arguments missing_keys {K} _.
Arguments invalid_keys {K} _.
Arguments wrong_keys {K} _.

(** What a call does: it returns, raises a [SchemaError], or raises another
    exception. *)
Inductive outcome (K A : Type) : Type :=
| Return (a : A)
| Raise (x : SchemaError_ K)
| RaiseOther (x : pyexn).

Arguments Return {K A} _.
Arguments Raise {K A} _.
Arguments RaiseOther {K A} _.

Definition bind {K A B} (c : outcome K A) (k : A -> outcome K B)
  : outcome K B :=
  match c with
  | Return a => k a
  | Raise x => Raise x
  | RaiseOther x => RaiseOther x
  end.

Notation "x <- c ;; k" := (bind c (fun x => k))
  (at level 61, c at next level, right associativity).

(** A callable object: [__name__] when it has one, [str(f)], [repr(f)], and
    what calling it on one argument does. *)
Record callable_ (K : Type) : Type := mkCallable {
  c_name : option string;
  c_str : string;
  c_repr : string;
  c_call : value -> outcome K value
}.

Arguments mkCallable {K} _ _ _ _.
Arguments c_name {K} _.
Arguments c_str {K} _.
Arguments c_repr {K} _.
Arguments c_call {K} _ _.

(* ================================================================== *)
(** * Schema descriptions *)
(* ================================================================== *)

(** The keyword arguments [And.__init__] accepts:
    [assert list(kw) in (['error'], ['allow_wrong_keys'], [])]. *)
Inductive kwargs : Type :=
| NoKw
| KwError (error : option string)
| KwAllowWrongKeys (allow_wrong_keys : option bool).

(** [kw.get('error')] and [kw.get('allow_wrong_keys')]. *)
Definition kw_error (kw : kwargs) : option string :=
  match kw with KwError e => e | _ => None end.

Definition kw_allow_wrong_keys (kw : kwargs) : option bool :=
  match kw with KwAllowWrongKeys w => w | _ => None end.

(** The containers of alternatives ([set] and [frozenset] are left out). *)
Inductive container : Type := CList | CTuple.

Definition container_type (c : container) : pytype :=
  match c with CList => TList | CTuple => TTuple end.

(** The attributes [default] and [key] an [Optional] gets when it is built
    with a default. *)
Record default_attrs : Type := mkDefault { default : value; key : atom }.

(** The objects a [Schema] can wrap.  [SSchema s e w] is the object
    [Schema(s, error=e, allow_wrong_keys=w)]; [allow_wrong_keys] is [None]
    where [And] passes its own unset option on. *)
Inductive sdesc : Type :=
| SLit (a : atom)
| SCallable (f : callable_ sdesc)
| SType (t : pytype)
| SAnd (args : list sdesc) (kw : kwargs)
| SOr (args : list sdesc) (kw : kwargs)
| SUse (f : callable_ sdesc) (error : option string)
| SSchema (s : sdesc) (error : option string) (allow_wrong_keys : option bool)
| SOptional (s : sdesc) (error : option string)
            (allow_wrong_keys : option bool) (dflt : option default_attrs)
| SDict (items : list (sdesc * sdesc))
| SIter (c : container) (elems : list sdesc).

Definition SchemaError : Type := SchemaError_ sdesc.
Definition result (A : Type) : Type := outcome sdesc A.
Definition callable : Type := callable_ sdesc.

(** [SchemaError(auto, e, ...)] with a single message: a non-list argument
    is wrapped in a list. *)
Definition SchemaError1 (auto : string) (e : option string) : SchemaError :=
  mkSchemaError [Some auto] [e] None None None.

Definition repr_type (t : pytype) : string := "<class '" ++ type_name t ++ "'>".

(** [__repr__] of the objects. *)
Fixpoint repr_schema (s : sdesc) : string :=
  match s with
  | SLit a => repr_atom a
  | SCallable f => c_repr f
  | SType t => repr_type t
  | SAnd args _ => "And(" ++ join ", " (map repr_schema args) ++ ")"
  | SOr args _ => "Or(" ++ join ", " (map repr_schema args) ++ ")"
  | SUse f _ => "Use(" ++ c_repr f ++ ")"
  | SSchema s' _ _ => "Schema(" ++ repr_schema s' ++ ")"
  | SOptional s' _ _ _ => "Optional(" ++ repr_schema s' ++ ")"
  | SDict items =>
      "{" ++ join ", " (map (fun kv : sdesc * sdesc =>
                               let (k, v) := kv in
                               repr_item (repr_schema k, repr_schema v))
                            items) ++ "}"
  | SIter CList elems => "[" ++ join ", " (map repr_schema elems) ++ "]"
  | SIter CTuple elems => repr_tuple (map repr_schema elems)
  end.

(** ** [SchemaError.code] *)

Definition str_in (x : string) (seen : list string) : bool :=
  existsb (String.eqb x) seen.

(** [[x for x in seq if x not in seen and not seen_add(x)]]. *)
Fixpoint uniq_from (seen : list string) (seq : list string) : list string :=
  match seq with
  | [] => []
  | x :: r => if str_in x seen then uniq_from seen r
              else x :: uniq_from (x :: seen) r
  end.

Definition uniq (seq : list string) : list string := uniq_from [] seq.

(** [(i for i in l if i is not None)]. *)
Fixpoint not_None (l : list (option string)) : list string :=
  match l with
  | [] => []
  | Some i :: r => i :: not_None r
  | None :: r => not_None r
  end.

Definition code (self : SchemaError) : string :=
  let a := uniq (not_None (autos self)) in
  let e := uniq (not_None (errors self)) in
  match e with
  | _ :: _ => join nl e
  | [] => join nl a
  end.

(* ================================================================== *)
(** * [_priority] *)
(* ================================================================== *)

(** [COMPARABLE, CALLABLE, VALIDATOR, TYPE, DICT, ITERABLE = range(6)]. *)
Inductive flavor : Type :=
| COMPARABLE | CALLABLE | VALIDATOR | TYPE | DICT | ITERABLE.

Definition flavor_code (f : flavor) : Z :=
  match f with
  | COMPARABLE => 0 | CALLABLE => 1 | VALIDATOR => 2
  | TYPE => 3 | DICT => 4 | ITERABLE => 5
  end.

Definition flavor_eqb (f g : flavor) : bool := flavor_code f =? flavor_code g.

(** The tests of [_priority], in their order, on each kind of object. *)
Definition _priority (s : sdesc) : flavor :=
  match s with
  | SIter _ _ => ITERABLE
  | SDict _ => DICT
  | SType _ => TYPE
  | SAnd _ _ | SOr _ _ | SUse _ _ | SSchema _ _ _ | SOptional _ _ _ _ =>
      VALIDATOR
  | SCallable _ => CALLABLE
  | SLit _ => COMPARABLE
  end.

Definition is_Optional (s : sdesc) : bool :=
  match s with SOptional _ _ _ _ => true | _ => false end.

(** [Schema._dict_key_priority]. *)
Definition _dict_key_priority (s : sdesc) : Q :=
  match s with
  | SOptional s' _ _ _ => Qplus (inject_Z (flavor_code (_priority s'))) (Qmake 1 2)
  | _ => inject_Z (flavor_code (_priority s))
  end.

(** [_callable_str]. *)
Definition _callable_str (f : callable) : string :=
  match c_name f with
  | Some name => name
  | None => c_str f
  end.

(* ================================================================== *)
(** * The parts of [validate] *)
(* ================================================================== *)

(** [SchemaError([None] + x.autos, [e] + x.errors)]. *)
Definition wrapped (e : option string) (x : SchemaError) : SchemaError :=
  mkSchemaError (None :: autos x) (e :: errors x) None None None.

(** TYPE. *)
Definition validate_type (t : pytype) (e : option string) (data : value)
  : result value :=
  if isinstance data t then Return data
  else Raise (SchemaError1 (repr data ++ " should be instance of "
                            ++ repr_str (type_name t)) e).

(** COMPARABLE. *)
Definition validate_comparable (a : atom) (e : option string) (data : value)
  : result value :=
  if py_eq (VAtom a) data then Return data
  else Raise (SchemaError1 (repr_atom a ++ " does not match " ++ repr data) e).

(** CALLABLE. *)
Definition validate_callable (s : callable) (e : option string) (data : value)
  : result value :=
  let f := _callable_str s in
  match c_call s data with
  | Return r =>
      if truthy r then Return data
      else Raise (SchemaError1 (f ++ "(" ++ repr data
                                ++ ") should evaluate to True") e)
  | Raise x => Raise (wrapped e x)
  | RaiseOther x =>
      Raise (SchemaError1 (f ++ "(" ++ repr data ++ ") raised " ++ repr_exn x)
                          e)
  end.

(** VALIDATOR: the [try] around [s.validate(data)]. *)
Definition validate_validator (srepr : string) (e : option string)
    (data : value) (call : result value) : result value :=
  match call with
  | Return v => Return v
  | Raise x => Raise (wrapped e x)
  | RaiseOther x =>
      Raise (SchemaError1 (srepr ++ ".validate(" ++ repr data ++ ") raised "
                           ++ repr_exn x) e)
  end.

(** The loop of [And.validate] over the wrapped sub-schemas. *)
Fixpoint And_loop (ss : list (value -> result value)) (data : value)
  : result value :=
  match ss with
  | [] => Return data
  | s :: rest => data' <- s data ;; And_loop rest data'
  end.

(** The loop of [Or.validate], [x] being the last error caught, and the
    [raise] after it. *)
Fixpoint Or_loop (self : string) (error : option string)
    (ss : list (value -> result value)) (x : SchemaError) (data : value)
  : result value :=
  match ss with
  | [] =>
      Raise (mkSchemaError
               (Some (self ++ " did not validate " ++ repr data) :: autos x)
               (error :: errors x) None None None)
  | s :: rest =>
      match s data with
      | Return v => Return v
      | Raise _x => Or_loop self error rest _x data
      | RaiseOther ex => RaiseOther ex
      end
  end.

Definition Or_repr (args : list sdesc) : string :=
  "Or(" ++ join ", " (map repr_schema args) ++ ")".

(** [Use.validate]. *)
Definition Use_validate (f : callable) (error : option string) (data : value)
  : result value :=
  match c_call f data with
  | Return v => Return v
  | Raise x => Raise (wrapped error x)
  | RaiseOther x =>
      Raise (SchemaError1 (_callable_str f ++ "(" ++ repr data ++ ") raised "
                           ++ repr_exn x) error)
  end.

(** [type(data)(o.validate(d) for d in data)]: the elements are validated
    from the left and the first exception ends the construction. *)
Fixpoint validate_each (o : value -> result value) (l : list value)
  : result (list value) :=
  match l with
  | [] => Return []
  | d :: r => v <- o d ;; vs <- validate_each o r ;; Return (v :: vs)
  end.

(** ITERABLE, after the check of the container's type; no other value
    reaches it. *)
Definition validate_iterable (o : value -> result value) (data : value)
  : result value :=
  match data with
  | VList l => l' <- validate_each o l ;; Return (VList l')
  | VTuple l => l' <- validate_each o l ;; Return (VTuple l')
  | _ => RaiseOther (TypeError ("cannot rebuild " ++ repr data))
  end.

(* ================================================================== *)
(** * The DICT flavor *)
(* ================================================================== *)

(** A key of the schema dict as the matcher uses it: its position in the
    dict (the keys of a dict are pairwise distinct objects, so the position
    stands for the key object in [coverage]), the key, its value [s[skey]],
    and the two calls [Schema(skey, error=e, allow_wrong_keys=w).validate]
    and [Schema(svalue, error=e, allow_wrong_keys=w).validate]. *)
Record entry : Type := mkEntry {
  en_index : nat;
  en_skey : sdesc;
  en_svalue : sdesc;
  en_validate_skey : value -> result value;
  en_validate_svalue : value -> result value
}.

(** The entries of a schema dict, in the order of the dict, for a given
    [Schema(_, error=e, allow_wrong_keys=w).validate]. *)
Fixpoint entries_from (rec : sdesc -> value -> result value) (i : nat)
    (items : list (sdesc * sdesc)) : list entry :=
  match items with
  | [] => []
  | (k, v) :: r => mkEntry i k v (rec k) (rec v) :: entries_from rec (S i) r
  end.

Definition entries (rec : sdesc -> value -> result value)
    (items : list (sdesc * sdesc)) : list entry :=
  entries_from rec 0 items.

(** An entry whose two calls are [rec] on its key and on its value. *)
Definition entry_of (rec : sdesc -> value -> result value) (en : entry)
  : Prop :=
  en_validate_skey en = rec (en_skey en)
  /\ en_validate_svalue en = rec (en_svalue en).

(** The local variables that live across the loop over [data.items()]. *)
Record dict_state : Type := mkState {
  st_new : dict;
  st_x : option SchemaError;
  st_coverage : list nat
}.

Definition set_invalid_keys (x : SchemaError) (ks : list value)
  : SchemaError :=
  mkSchemaError (autos x) (errors x) (missing_keys x) (Some ks) (wrong_keys x).

(** [new[nkey] = nvalue]. *)
Definition setitem (d : dict) (k v : value) : result dict :=
  match unhashable k with
  | Some t => RaiseOther (TypeError ("unhashable type: '" ++ t ++ "'"))
  | None => Return (dict_set d k v)
  end.

(** ['Invalid value for key %r' % key]: a tuple on the right of [%] is the
    argument list. *)
Definition invalid_value_for_key (key : value) : result string :=
  match key with
  | VTuple [] => RaiseOther (TypeError "not enough arguments for format string")
  | VTuple [a] => Return ("Invalid value for key " ++ repr a)
  | VTuple _ =>
      RaiseOther
        (TypeError "not all arguments converted during string formatting")
  | _ => Return ("Invalid value for key " ++ repr key)
  end.

(** [for skey in sorted_skeys: ...]: [Return None] when the loop ends
    without [break], [Return (Some (skey, nkey, nvalue))] on [break]. *)
Fixpoint find_skey (key value_ : value) (sorted_skeys : list entry)
  : result (option (entry * value * value)) :=
  match sorted_skeys with
  | [] => Return None
  | skey :: rest =>
      match en_validate_skey skey key with
      | Raise _ => find_skey key value_ rest
      | RaiseOther ex => RaiseOther ex
      | Return nkey =>
          match en_validate_svalue skey value_ with
          | Raise _x => Raise (set_invalid_keys _x [key])
          | RaiseOther ex => RaiseOther ex
          | Return nvalue => Return (Some (skey, nkey, nvalue))
          end
      end
  end.

(** [skey is not None] after a loop that ended without [break]: [skey] is
    the last key tried, or still [None] when there was no key. *)
Definition skey_is_not_None (sorted_skeys : list entry) : bool :=
  match rev sorted_skeys with
  | [] => false
  | skey :: _ => match en_skey skey with SLit ANone => false | _ => true end
  end.

(** One turn of [for key, value in data.items(): ...]. *)
Definition dict_step (e : option string) (sorted_skeys : list entry)
    (st : dict_state) (kv : value * value) : result dict_state :=
  let (key, value_) := kv in
  found <- find_skey key value_ sorted_skeys ;;
  match found with
  | Some (skey, nkey, nvalue) =>
      new <- setitem (st_new st) nkey nvalue ;;
      Return (mkState new (st_x st) (en_index skey :: st_coverage st))
  | None =>
      if skey_is_not_None sorted_skeys then
        match st_x st with
        | Some x =>
            msg <- invalid_value_for_key key ;;
            Raise (mkSchemaError (Some msg :: autos x) (e :: errors x)
                                 None (Some [key]) None)
        | None => Return st
        end
      else Return st
  end.

Fixpoint dict_loop (e : option string) (sorted_skeys : list entry)
    (st : dict_state) (items : list (value * value)) : result dict_state :=
  match items with
  | [] => Return st
  | kv :: r => st' <- dict_step e sorted_skeys st kv ;;
               dict_loop e sorted_skeys st' r
  end.

Definition covered (coverage : list nat) (en : entry) : bool :=
  existsb (Nat.eqb (en_index en)) coverage.

(** [not self._allow_wrong_keys]. *)
Definition not_allow (w : option bool) : bool :=
  match w with Some true => false | _ => true end.

Definition has_default (en : entry) : bool :=
  match en_skey en with SOptional _ _ _ (Some _) => true | _ => false end.

(** [for default in defaults: new[default.key] = default.default]. *)
Fixpoint apply_defaults (new : dict) (defaults : list entry) : dict :=
  match defaults with
  | [] => new
  | en :: r =>
      match en_skey en with
      | SOptional _ _ _ (Some d) =>
          apply_defaults (dict_set new (VAtom (key d)) (default d)) r
      | _ => apply_defaults new r
      end
  end.

(** The statements after the loop.  A Python [set] is iterated in no
    specified order; the model lists [missing_keys] and [defaults] in the
    order of the schema dict, which is one of the orders the code can take.
    What is proved of them holds for every order: which keys are listed,
    which keys the result has, and the default under a key whose defaults
    agree. *)
Definition dict_finish (e : option string) (w : option bool) (s : list entry)
    (data : dict) (st : dict_state) : result value :=
  let new := st_new st in
  let coverage := st_coverage st in
  let required := filter (fun en => negb (is_Optional (en_skey en))) s in
  if negb (forallb (covered coverage) required) then
    let missing_keys :=
      filter (fun en => negb (covered coverage en)) required in
    let s_missing_keys :=
      join ", " (map (fun en => repr_schema (en_skey en)) missing_keys) in
    Raise (mkSchemaError [Some ("Missing keys: " ++ s_missing_keys)] [e]
             (Some (map en_skey missing_keys)) None None)
  else if not_allow w && negb (List.length new =? List.length data)%nat then
    let wrong_keys :=
      filter (fun k => negb (dict_mem k new)) (keys data) in
    let wrong_keys := sorted String.leb repr wrong_keys in
    let s_wrong_keys := join ", " (map repr wrong_keys) in
    Raise (mkSchemaError
             [Some ("Wrong keys " ++ s_wrong_keys ++ " in "
                    ++ repr (VDict data))]
             [e] None None (Some wrong_keys))
  else
    let defaults :=
      filter (fun en => has_default en && negb (covered coverage en)) s in
    Return (VDict (apply_defaults new defaults)).

Definition sorted_skeys_of (s : list entry) : list entry :=
  sorted Qle_bool (fun en => _dict_key_priority (en_skey en)) s.

(** DICT.  Only a dict passes the first check. *)
Definition validate_dict (e : option string) (w : option bool)
    (s : list entry) (data : value) : result value :=
  data' <- validate_type TDict e data ;;
  match data' with
  | VDict items =>
      st <- dict_loop e (sorted_skeys_of s) (mkState [] None []) items ;;
      dict_finish e w s items st
  | _ => RaiseOther (TypeError ("not a dict: " ++ repr data'))
  end.

(* ================================================================== *)
(** * [Schema], [And], [Or], [Use], [Optional] *)
(* ================================================================== *)

(** [x = SchemaError([], [])] at the start of [Or.validate]. *)
Definition no_error : SchemaError := mkSchemaError [] [] None None None.

Module Schema.

(** [Schema(s, error=e, allow_wrong_keys=w).validate(data)].

    The branches follow [flavor = _priority(s)].  The calls of [validate]
    on the parts of [s] are made where the parts are taken out of [s]:
    [And.validate] and [Or.validate] appear here as their loops over the
    wrapped sub-schemas, and the schema dict as its list of [entry]. *)
Fixpoint validate (s : sdesc) (e : option string) (w : option bool)
    (data : value) {struct s} : result value :=
  match s with
  (* flavor == ITERABLE; [o = Or( *s, error=e)] *)
  | SIter c elems =>
      data' <- validate_type (container_type c) e data ;;
      validate_iterable
        (Or_loop (Or_repr elems) e
                 (map (fun a => validate a e None) elems) no_error)
        data'
  (* flavor == DICT *)
  | SDict items =>
      validate_dict e w
        ((fix entries_from (i : nat) (items : list (sdesc * sdesc))
            : list entry :=
            match items with
            | [] => []
            | (k, v) :: r =>
                mkEntry i k v (validate k e w) (validate v e w)
                :: entries_from (S i) r
            end) 0%nat items)
        data
  (* flavor == TYPE *)
  | SType t => validate_type t e data
  (* flavor == VALIDATOR *)
  | SAnd args kw =>
      validate_validator (repr_schema s) e data
        (And_loop
           (map (fun a => validate a (kw_error kw) (kw_allow_wrong_keys kw))
                args)
           data)
  | SOr args kw =>
      validate_validator (repr_schema s) e data
        (Or_loop (Or_repr args) (kw_error kw)
           (map (fun a => validate a (kw_error kw) (kw_allow_wrong_keys kw))
                args)
           no_error data)
  | SUse f error =>
      validate_validator (repr_schema s) e data (Use_validate f error data)
  | SSchema s' e' w' =>
      validate_validator (repr_schema s) e data (validate s' e' w' data)
  | SOptional s' e' w' _ =>
      validate_validator (repr_schema s) e data (validate s' e' w' data)
  (* flavor == CALLABLE *)
  | SCallable f => validate_callable f e data
  (* COMPARABLE *)
  | SLit a => validate_comparable a e data
  end.

End Schema.

Module And.

(** [And( *args, **kw).validate(data)]. *)
Definition validate (args : list sdesc) (kw : kwargs) (data : value)
  : result value :=
  And_loop
    (map (fun s => Schema.validate s (kw_error kw) (kw_allow_wrong_keys kw))
         args)
    data.

End And.

Module Or.

(** [Or( *args, **kw).validate(data)]. *)
Definition validate (args : list sdesc) (kw : kwargs) (data : value)
  : result value :=
  Or_loop (Or_repr args) (kw_error kw)
    (map (fun s => Schema.validate s (kw_error kw) (kw_allow_wrong_keys kw))
         args)
    no_error data.

End Or.

Module Use.

(** [Use(callable_, error).validate(data)]. *)
Definition validate (callable_ : callable) (error : option string)
    (data : value) : result value :=
  Use_validate callable_ error data.

End Use.

Module Optional.

Definition too_complex (s : sdesc) : string :=
  "Optional keys with defaults must have simple, predictable values, "
  ++ "like literal strings or ints. " ++ String dquote (repr_schema s)
  ++ String dquote " is too complex.".

(** [Optional(schema, error=..., allow_wrong_keys=..., default=...)]:
    [dflt] is [None] when no [default] is passed (the [_MARKER]).  The
    object built, or the [TypeError] raised. *)
Definition __init__ (schema : sdesc) (error : option string)
    (allow_wrong_keys : option bool) (dflt : option value) : result sdesc :=
  match dflt with
  | None => Return (SOptional schema error allow_wrong_keys None)
  | Some d =>
      if negb (flavor_eqb (_priority schema) COMPARABLE) then
        RaiseOther (TypeError (too_complex schema))
      else
        match schema with
        | SLit a =>
            Return (SOptional schema error allow_wrong_keys
                              (Some (mkDefault d a)))
        | _ => RaiseOther (TypeError (too_complex schema))
        end
  end.

End Optional.

(** The builtin [int] as a callable: [Use(int)]. *)
Definition builtin_int : callable :=
  mkCallable (Some "int") (repr_type TInt) (repr_type TInt)
    (fun v =>
       match v with
       | VAtom (AInt z) => Return (VInt z)
       | VAtom (ABool b) => Return (VInt (if b then 1 else 0))
       | VAtom (AStr s) =>
           match parse_int s with
           | Some z => Return (VInt z)
           | None =>
               RaiseOther (ValueError
                 ("invalid literal for int() with base 10: " ++ repr_str s))
           end
       | _ =>
           RaiseOther (TypeError
             ("int() argument must be a string, a bytes-like object or a "
              ++ "real number, not '" ++ type_name (type_of v) ++ "'"))
       end).

(** ** The schemas and inputs of the examples *)

(** [Optional("b", default=0)]. *)
Definition optional_b : sdesc :=
  SOptional (SLit (AStr "b")) None (Some true)
            (Some (mkDefault (VInt 0) (AStr "b"))).

(** [{"a": int, Optional("b", default=0): int}]. *)
Definition schema_a_b : sdesc :=
  SDict [(SLit (AStr "a"), SType TInt); (optional_b, SType TInt)].

(** [{"a": int}]. *)
Definition schema_a : sdesc := SDict [(SLit (AStr "a"), SType TInt)].

(** [{"a": 1, "z": 9}]. *)
Definition data_a_z : value :=
  VDict [(VStr "a", VInt 1); (VStr "z", VInt 9)].

(** [{"a": int, "b": int, str: str}]. *)
Definition schema_a_b_str : list (sdesc * sdesc) :=
  [(SLit (AStr "a"), SType TInt); (SLit (AStr "b"), SType TInt);
   (SType TStr, SType TStr)].

Definition entry_at (i : nat) (k v : sdesc) : entry :=
  mkEntry i k v (fun d => Schema.validate k None (Some true) d)
                (fun d => Schema.validate v None (Some true) d).

(** ** Rendering as the specification words it *)

(** Deduplication that keeps first occurrences: the head stays, and is
    removed from the deduplicated rest. *)
Fixpoint dedup_first (l : list string) : list string :=
  match l with
  | [] => []
  | x :: r => x :: filter (fun y => negb (String.eqb y x)) (dedup_first r)
  end.

(** The entries of a chain that are not absent. *)
Definition present (l : list (option string)) : list string :=
  flat_map (fun o => match o with Some m => [m] | None => [] end) l.

(** The custom messages if there is one, else the auto messages; each
    deduplicated and joined with newlines. *)
Definition render_spec (x : SchemaError) : string :=
  let customs := dedup_first (present (errors x)) in
  if (0 <? List.length customs)%nat then join nl customs
  else join nl (dedup_first (present (autos x))).

(** ** The stale error of the mapping matcher, as an event *)

(** While [Schema(SDict items, error=e, allow_wrong_keys=w)] validates the
    dict [data]: the pairs [pre] have been processed, the variable [x] still
    holds the error [x0] of one of them, no schema key matches the next
    input key, and the turn for that key raises [x0] again under this
    key. *)
Definition stale_error (e : option string) (w : option bool)
    (items : list (sdesc * sdesc)) (data : dict) : Prop :=
  let sorted_skeys :=
    sorted_skeys_of (entries (fun s => Schema.validate s e w) items) in
  exists pre key value_ post st x0 err,
    data = (pre ++ (key, value_) :: post)%list /\
    dict_loop e sorted_skeys (mkState [] None []) pre = Return st /\
    st_x st = Some x0 /\
    find_skey key value_ sorted_skeys = Return None /\
    dict_step e sorted_skeys st (key, value_) = Raise err /\
    errors err = e :: errors x0 /\
    invalid_keys err = Some [key].

(** ** Schemas that only check *)

(** No [Use] and no mapping anywhere in the schema: what is left are
    literals, types, predicates, and their combinations by [And], [Or],
    [Schema], [Optional] and containers of alternatives. *)
Fixpoint plain (s : sdesc) : bool :=
  match s with
  | SLit _ | SCallable _ | SType _ => true
  | SAnd args _ | SOr args _ => forallb plain args
  | SUse _ _ => false
  | SSchema s' _ _ | SOptional s' _ _ _ => plain s'
  | SDict _ => false
  | SIter _ elems => forallb plain elems
  end.

(** The defaults of a schema dict, set in the order of the dict on top of
    [new].  *)
Fixpoint item_defaults (new : dict) (items : list (sdesc * sdesc)) : dict :=
  match items with
  | [] => new
  | (SOptional _ _ _ (Some d), _) :: r =>
      item_defaults (dict_set new (VAtom (key d)) (default d)) r
  | _ :: r => item_defaults new r
  end.

(** The keys of a schema dict that are not [Optional]. *)
Definition required_keys (items : list (sdesc * sdesc)) : list sdesc :=
  filter (fun k => negb (is_Optional k)) (map fst items).

(** The literal a schema key stands for: the key itself, or the schema of
    an [Optional] that wraps a literal. *)
Definition literal_key (k : sdesc) : option atom :=
  match k with
  | SLit a => Some a
  | SOptional (SLit a) _ _ _ => Some a
  | _ => None
  end.

(** The literal of every covered key of the schema dict [s] is a key of
    [new]. *)
Definition covered_in_new (s : list entry) (st : dict_state) : Prop :=
  forall en a,
    In en s -> literal_key (en_skey en) = Some a ->
    covered (st_coverage st) en = true ->
    dict_mem (VAtom a) (st_new st) = true.

(** The priority of an entry's key, and the order [sorted] puts on
    entries. *)
Definition entry_priority (en : entry) : Q := _dict_key_priority (en_skey en).

Definition priority_le (a b : entry) : Prop :=
  Qle (entry_priority a) (entry_priority b).

(** The entries whose key has the priority [q]. *)
Definition with_priority (q : Q) (l : list entry) : list entry :=
  filter (fun en => Qeq_bool (entry_priority en) q) l.

(** ** Wrapping *)

(** [outer] wraps [inner]: one auto message and one custom message put in
    front of the chains of [inner], as
    [SchemaError([...] + x.autos, [...] + x.errors)] does. *)
Definition wraps (outer inner : SchemaError) : Prop :=
  exists (a c : option string),
    autos outer = a :: autos inner /\ errors outer = c :: errors inner.

(** [d[k]], when [k] is a key of [d]. *)
Fixpoint dict_get (k : value) (d : dict) : option value :=
  match d with
  | [] => None
  | (k', v) :: r => if py_eq k' k then Some v else dict_get k r
  end.

(** [d] holds the [default] and [key] of an [Optional] key of the schema
    dict, and this [key] equals [k]. *)
Definition has_default_key (items : list (sdesc * sdesc)) (k : value)
    (d : default_attrs) : Prop :=
  exists s' e' w' sv,
    In (SOptional s' e' w' (Some d), sv) items
    /\ py_eq (VAtom (key d)) k = true.

(** A call that returns nothing but its argument. *)
Definition returns_input (f : value -> result value) : Prop :=
  forall d v, f d = Return v -> v = d.

(** The list or tuple with the elements [l]. *)
Definition container_value (c : container) (l : list value) : value :=
  match c with CList => VList l | CTuple => VTuple l end.



(** ** Induction on schemas *)

Section SdescInduction.
Variable P : sdesc -> Prop.
Hypothesis HLit : forall a, P (SLit a).
Hypothesis HCallable : forall f, P (SCallable f).
Hypothesis HType : forall t, P (SType t).
Hypothesis HAnd : forall args kw, Forall P args -> P (SAnd args kw).
Hypothesis HOr : forall args kw, Forall P args -> P (SOr args kw).
Hypothesis HUse : forall f error, P (SUse f error).
Hypothesis HSchema : forall s e w, P s -> P (SSchema s e w).
Hypothesis HOptional : forall s e w d, P s -> P (SOptional s e w d).
Hypothesis HDict :
  forall items,
    Forall (fun kv : sdesc * sdesc => P (fst kv) /\ P (snd kv)) items ->
    P (SDict items).
Hypothesis HIter : forall c elems, Forall P elems -> P (SIter c elems).

Fixpoint sdesc_induction (s : sdesc) : P s :=
  let all :=
    fix all (l : list sdesc) : Forall P l :=
      match l with
      | [] => Forall_nil P
      | x :: r => Forall_cons x (sdesc_induction x) (all r)
      end in
  match s with
  | SLit a => HLit a
  | SCallable f => HCallable f
  | SType t => HType t
  | SAnd args kw => HAnd kw (all args)
  | SOr args kw => HOr kw (all args)
  | SUse f error => HUse f error
  | SSchema s' e w => HSchema e w (sdesc_induction s')
  | SOptional s' e w d => HOptional e w d (sdesc_induction s')
  | SDict items =>
      HDict
        ((fix pairs (l : list (sdesc * sdesc))
            : Forall (fun kv : sdesc * sdesc => P (fst kv) /\ P (snd kv)) l :=
            match l with
            | [] => Forall_nil _
            | (k, v) :: r =>
                Forall_cons (k, v)
                  (conj (sdesc_induction k) (sdesc_induction v)) (pairs r)
            end) items)
  | SIter c elems => HIter c (all elems)
  end.
End SdescInduction.

(* ================================================================== *)
(** * Properties *)
(* ================================================================== *)

(** ** Unfolding [Schema.validate] *)

Lemma validate_SDict (items : list (sdesc * sdesc)) e w data :
  Schema.validate (SDict items) e w data
  = validate_dict e w (entries (fun s => Schema.validate s e w) items) data.
Proof.
  cbn [Schema.validate]. f_equal. unfold entries.
  generalize 0%nat. induction items as [| [k v] r IH]; intro i.
  - reflexivity.
  - cbn [entries_from]. f_equal. apply IH.
Qed.

Lemma validate_SAnd args kw e w data :
  Schema.validate (SAnd args kw) e w data
  = validate_validator (repr_schema (SAnd args kw)) e data
      (And.validate args kw data).
Proof. reflexivity. Qed.

Lemma validate_SOr args kw e w data :
  Schema.validate (SOr args kw) e w data
  = validate_validator (repr_schema (SOr args kw)) e data
      (Or.validate args kw data).
Proof. reflexivity. Qed.

Lemma validate_SIter c elems e w data :
  Schema.validate (SIter c elems) e w data
  = (data' <- validate_type (container_type c) e data ;;
     validate_iterable (Or.validate elems (KwError e)) data').
Proof. reflexivity. Qed.

(** ** [sorted] keeps the elements *)

Section SortedFacts.
Variables A K : Type.
Variable leb : K -> K -> bool.
Variable key : A -> K.

Lemma insert_sorted_In (x y : A) (l : list A) :
  In y (insert_sorted leb key x l) <-> y = x \/ In y l.
Proof.
  induction l as [| z r IH]; cbn.
  - intuition.
  - destruct (leb (key x) (key z)); cbn; [intuition |].
    rewrite IH. intuition.
Qed.

Lemma sorted_In (y : A) (l : list A) :
  In y (sorted leb key l) <-> In y l.
Proof.
  induction l as [| x r IH]; cbn; [tauto |].
  rewrite insert_sorted_In, IH. intuition.
Qed.
End SortedFacts.

(** ** The entries of a schema dict carry [validate] on their parts *)

Section EntriesFacts.
Variable rec : sdesc -> value -> result value.

Lemma entries_from_entry_of i items en :
  In en (entries_from rec i items) -> entry_of rec en.
Proof.
  revert i. induction items as [| [k v] r IH]; intros i; cbn.
  - tauto.
  - intros [<- | H]; [split; reflexivity | eauto].
Qed.

Lemma sorted_skeys_entry_of items en :
  In en (sorted_skeys_of (entries rec items)) -> entry_of rec en.
Proof.
  unfold sorted_skeys_of. rewrite sorted_In.
  apply entries_from_entry_of.
Qed.
End EntriesFacts.

(** ** The loops of the mapping matcher *)

Section MatcherFacts.
Variable e : option string.
Variable sorted_skeys : list entry.

Lemma dict_loop_app st pre post :
  dict_loop e sorted_skeys st (pre ++ post)%list
  = (st' <- dict_loop e sorted_skeys st pre ;;
     dict_loop e sorted_skeys st' post).
Proof.
  revert st. induction pre as [| kv r IH]; intro st; cbn.
  - reflexivity.
  - destruct (dict_step e sorted_skeys st kv); cbn; auto.
Qed.

(** A key that matches a candidate whose value schema rejects the value
    ends the search at that candidate. *)
Lemma find_skey_invalid key value_ cpre c cpost nkey xv :
  Forall (fun c' => exists x', en_validate_skey c' key = Raise x') cpre ->
  en_validate_skey c key = Return nkey ->
  en_validate_svalue c value_ = Raise xv ->
  find_skey key value_ (cpre ++ c :: cpost)%list
  = Raise (set_invalid_keys xv [key]).
Proof.
  intros Hpre Hk Hv. induction Hpre as [| c' r [x' Hx'] _ IH]; cbn.
  - now rewrite Hk, Hv.
  - now rewrite Hx'.
Qed.

(** Every [SchemaError] that leaves the search comes from a value schema
    whose key schema accepted the key. *)
Lemma find_skey_Raise key value_ cands err :
  find_skey key value_ cands = Raise err ->
  exists c nkey xv,
    In c cands /\ en_validate_skey c key = Return nkey
    /\ en_validate_svalue c value_ = Raise xv
    /\ err = set_invalid_keys xv [key].
Proof.
  induction cands as [| c r IH]; cbn; [discriminate |].
  destruct (en_validate_skey c key) as [nkey | x' |] eqn:Hk.
  - destruct (en_validate_svalue c value_) as [nvalue | xv |] eqn:Hv;
      try discriminate.
    intros [= <-]. exists c, nkey, xv. auto.
  - intros H. destruct (IH H) as (c' & nkey & xv & Hin & rest).
    exists c', nkey, xv. auto.
  - discriminate.
Qed.

(** A turn of the loop that goes on leaves [x] as it was. *)
Lemma dict_step_x st kv st' :
  dict_step e sorted_skeys st kv = Return st' -> st_x st' = st_x st.
Proof.
  unfold dict_step. destruct kv as [key value_].
  destruct (find_skey key value_ sorted_skeys) as [found | |]; cbn;
    try discriminate.
  destruct found as [[[skey nkey] nvalue] |].
  - destruct (setitem (st_new st) nkey nvalue); cbn; try discriminate.
    now intros [= <-].
  - destruct (skey_is_not_None sorted_skeys).
    + destruct (st_x st) as [x |] eqn:Hx.
      * destruct (invalid_value_for_key key); discriminate.
      * now intros [= <-].
    + now intros [= <-].
Qed.

Lemma dict_loop_x st items st' :
  dict_loop e sorted_skeys st items = Return st' -> st_x st' = st_x st.
Proof.
  revert st. induction items as [| kv r IH]; intro st; cbn.
  - now intros [= <-].
  - destruct (dict_step e sorted_skeys st kv) as [st1 | |] eqn:Hstep; cbn;
      try discriminate.
    intro H. rewrite (IH _ H). eapply dict_step_x; eauto.
  Qed.

(** With [x] unset, a turn raises a [SchemaError] only out of the
    search. *)
Lemma dict_step_Raise st key value_ err :
  st_x st = None ->
  dict_step e sorted_skeys st (key, value_) = Raise err ->
  find_skey key value_ sorted_skeys = Raise err.
Proof.
  unfold dict_step. intros Hx.
  destruct (find_skey key value_ sorted_skeys) as [found | |]; cbn;
    [ | intros [= <-]; reflexivity | discriminate ].
  destruct found as [[[skey nkey] nvalue] |].
  - unfold setitem. destruct (unhashable nkey); discriminate.
  - rewrite Hx. destruct (skey_is_not_None sorted_skeys); discriminate.
Qed.
End MatcherFacts.

(** ** Mapping coverage and defaults *)

(** C1.  [Optional("b", default=0)] is built, and with the schema
    [{"a": int, Optional("b", default=0): int}], under any error override
    and wrong-key policy: [{"a": 1}] validates to [{"a": 1, "b": 0}],
    [{"a": 1, "b": 2}] validates to itself (the default does not replace
    the covered key), and [{}] raises a [SchemaError] whose [missing_keys]
    holds ["a"] (the default for ["b"] is not applied before the check of
    the required keys). *)
Theorem C1_mapping_coverage_defaults :
  Optional.__init__ (SLit (AStr "b")) None (Some true) (Some (VInt 0))
  = Return optional_b
  /\ forall (e : option string) (w : option bool),
       Schema.validate schema_a_b e w (VDict [(VStr "a", VInt 1)])
       = Return (VDict [(VStr "a", VInt 1); (VStr "b", VInt 0)])
       /\ Schema.validate schema_a_b e w
            (VDict [(VStr "a", VInt 1); (VStr "b", VInt 2)])
          = Return (VDict [(VStr "a", VInt 1); (VStr "b", VInt 2)])
       /\ exists x ks,
            Schema.validate schema_a_b e w (VDict []) = Raise x
            /\ missing_keys x = Some ks
            /\ In (SLit (AStr "a")) ks.
Proof.
  split; [reflexivity |].
  intros e w. split; [| split].
  - destruct w as [[|] |]; reflexivity.
  - destruct w as [[|] |]; reflexivity.
  - eexists. exists [SLit (AStr "a")].
    split; [reflexivity |]. split; [reflexivity |]. now left.
Qed.

(** ** The wrong-keys policy of a top-level schema *)

(** C3.  [Schema({"a": int}, allow_wrong_keys=False)] on
    [{"a": 1, "z": 9}] raises a [SchemaError] whose [wrong_keys] is
    [["z"]]; [Schema({"a": int})], with the default policy, returns
    [{"a": 1}]. *)
Theorem C3_wrong_keys_policy (e : option string) :
  Schema.validate schema_a e (Some false) data_a_z
  = Raise (mkSchemaError [Some "Wrong keys 'z' in {'a': 1, 'z': 9}"] [e]
             None None (Some [VStr "z"]))
  /\ Schema.validate schema_a e (Some true) data_a_z
     = Return (VDict [(VStr "a", VInt 1)]).
Proof. split; reflexivity. Qed.

(** ** The wrong-keys policy under a combinator *)

(** C4.  [And] and [Or] built without [allow_wrong_keys] hand
    [kw.get('allow_wrong_keys')], which is [None], to every wrapped
    [Schema], and [not None] makes the mapping matcher reject extra keys;
    the ITERABLE flavor builds its [Or] without the policy.  So
    [And({"a": int})], [Or({"a": int})] and [Schema([{"a": int}])] do not
    drop the key ["z"] of [{"a": 1, "z": 9}]: they raise, the first with
    [wrong_keys = ["z"]].  [And({"a": int}, allow_wrong_keys=True)] drops
    the key. *)
Theorem C4_combinators_reject_wrong_keys :
  kw_allow_wrong_keys NoKw = None
  /\ not_allow None = true
  /\ And.validate [schema_a] (KwAllowWrongKeys (Some true)) data_a_z
     = Return (VDict [(VStr "a", VInt 1)])
  /\ And.validate [schema_a] NoKw data_a_z
     = Raise (mkSchemaError [Some "Wrong keys 'z' in {'a': 1, 'z': 9}"]
                [None] None None (Some [VStr "z"]))
  /\ Or.validate [schema_a] NoKw data_a_z
     = Raise (mkSchemaError
                [Some "Or({'a': <class 'int'>}) did not validate {'a': 1, 'z': 9}";
                 Some "Wrong keys 'z' in {'a': 1, 'z': 9}"]
                [None; None] None None None)
  /\ Schema.validate (SIter CList [schema_a]) None (Some true)
       (VList [data_a_z])
     = Raise (mkSchemaError
                [Some "Or({'a': <class 'int'>}) did not validate {'a': 1, 'z': 9}";
                 Some "Wrong keys 'z' in {'a': 1, 'z': 9}"]
                [None; None] None None None).
Proof. repeat split. Qed.

(** ** Conjunction *)

(** C10.  [And()] returns its argument unchanged, whatever the keyword
    arguments. *)
Theorem C10_empty_And_is_identity (kw : kwargs) (data : value) :
  And.validate [] kw data = Return data.
Proof. reflexivity. Qed.

(** C6.  [And.validate] runs the wrapped sub-schemas from the left, each on
    what the one before returned, and stops at the first exception; its
    result is the last value.  [And(str, Use(int))] maps ["42"] to [42] and
    raises a [SchemaError] on ["x"]. *)
Theorem C6_And_pipeline :
  (forall (s : sdesc) (rest : list sdesc) (kw : kwargs) (data : value),
      And.validate (s :: rest) kw data
      = (data' <- Schema.validate s (kw_error kw) (kw_allow_wrong_keys kw)
                    data ;;
         And.validate rest kw data'))
  /\ (forall (kw : kwargs) (data : value), And.validate [] kw data = Return data)
  /\ And.validate [SType TStr; SUse builtin_int None] NoKw (VStr "42")
     = Return (VInt 42)
  /\ exists x : SchemaError,
       And.validate [SType TStr; SUse builtin_int None] NoKw (VStr "x")
       = Raise x.
Proof.
  split; [reflexivity |]. split; [reflexivity |]. split; [reflexivity |].
  eexists. reflexivity.
Qed.

(** ** [Optional] with a default *)

(** C9.  [Optional(schema, default=d)] builds the object, with
    [default = d] and [key = schema], when [_priority(schema)] is
    COMPARABLE, and raises [TypeError] from the constructor for every other
    flavor. *)
Theorem C9_Optional_default_needs_COMPARABLE
    (schema : sdesc) (e : option string) (w : option bool) (d : value) :
  match _priority schema with
  | COMPARABLE =>
      exists a : atom,
        schema = SLit a
        /\ Optional.__init__ schema e w (Some d)
           = Return (SOptional schema e w (Some (mkDefault d a)))
  | CALLABLE | VALIDATOR | TYPE | DICT | ITERABLE =>
      Optional.__init__ schema e w (Some d)
      = RaiseOther (TypeError (Optional.too_complex schema))
  end.
Proof.
  destruct schema; cbn [_priority]; try reflexivity.
  exists a. split; reflexivity.
Qed.

(** ** A matched key whose value is rejected *)

(** C2.  [Schema(SDict items, error=e, allow_wrong_keys=w)] validates a dict
    whose pairs [pre] go through the loop without an exception.  If the next
    input key is rejected by the candidates [cpre] tried first and accepted
    by the candidate [c], and the value schema of [c] raises the
    [SchemaError] [xv] on the input value, then [validate] raises there:
    the error raised is [xv] itself, its two chains unchanged and nothing
    put in front of them, with [invalid_keys = [key]], whatever the
    candidates [cpost] left to try and the pairs [post] left to process. *)
Theorem C2_invalid_value_raises_at_once
    (items : list (sdesc * sdesc)) (e : option string) (w : option bool)
    (pre post : list (value * value)) (key value_ nkey : value)
    (st : dict_state) (cpre cpost : list entry) (c : entry)
    (xv : SchemaError) :
  let sorted_skeys :=
    sorted_skeys_of (entries (fun s => Schema.validate s e w) items) in
  dict_loop e sorted_skeys (mkState [] None []) pre = Return st ->
  sorted_skeys = (cpre ++ c :: cpost)%list ->
  Forall (fun c' => exists x', Schema.validate (en_skey c') e w key = Raise x')
         cpre ->
  Schema.validate (en_skey c) e w key = Return nkey ->
  Schema.validate (en_svalue c) e w value_ = Raise xv ->
  Schema.validate (SDict items) e w (VDict (pre ++ (key, value_) :: post))
  = Raise (set_invalid_keys xv [key]).
Proof.
  intros sorted_skeys Hpre Hsplit Hrej Hk Hv.
  assert (Hent : forall en, In en sorted_skeys ->
                            entry_of (fun s => Schema.validate s e w) en)
    by (intro en; apply sorted_skeys_entry_of).
  rewrite validate_SDict. unfold validate_dict.
  change (validate_type TDict e (VDict (pre ++ (key, value_) :: post)))
    with (@Return sdesc value (VDict (pre ++ (key, value_) :: post))).
  cbn [bind]. fold sorted_skeys.
  rewrite dict_loop_app, Hpre. cbn [bind dict_loop dict_step].
  rewrite Hsplit.
  rewrite (@find_skey_invalid key value_ cpre c cpost nkey xv).
  - reflexivity.
  - rewrite Forall_forall in *. intros c' Hin.
    destruct (Hrej c' Hin) as [x' Hx']. exists x'.
    destruct (Hent c') as [-> _]; [| exact Hx'].
    rewrite Hsplit. apply in_or_app. now left.
  - destruct (Hent c) as [-> _]; [| exact Hk].
    rewrite Hsplit. apply in_or_app. right. now left.
  - destruct (Hent c) as [_ ->]; [| exact Hv].
    rewrite Hsplit. apply in_or_app. right. now left.
Qed.

(** ** Disjunction *)

Lemma last_cons_default (A : Type) (x d d' : A) (l : list A) :
  last (x :: l) d = last (x :: l) d'.
Proof.
  revert x. induction l as [| y r IH]; intro x; [reflexivity |].
  change (last (y :: r) d = last (y :: r) d'). apply IH.
Qed.

Lemma Or_loop_first_success self error (f : sdesc -> value -> result value)
    pre s post x data v :
  Forall (fun a => exists x', f a data = Raise x') pre ->
  f s data = Return v ->
  Or_loop self error (map f (pre ++ s :: post)) x data = Return v.
Proof.
  intros Hpre Hs. revert x.
  induction Hpre as [| a r [x' Hx'] _ IH]; intro x; cbn.
  - now rewrite Hs.
  - rewrite Hx'. apply IH.
Qed.

Lemma Or_loop_all_fail self error (f : sdesc -> value -> result value)
    args xs x data :
  Forall2 (fun a x' => f a data = Raise x') args xs ->
  Or_loop self error (map f args) x data
  = Raise (mkSchemaError
             (Some (self ++ " did not validate " ++ repr data)
              :: autos (last xs x))
             (error :: errors (last xs x)) None None None).
Proof.
  intros H. revert x. induction H as [| a x' r xs' Hax _ IH]; intro x.
  - reflexivity.
  - cbn [map Or_loop]. rewrite Hax, IH.
    destruct xs' as [| y l]; [reflexivity |].
    now rewrite (last_cons_default y x' x l).
Qed.

(** C5.  [Or( *args, **kw).validate(data)] calls the wrapped sub-schemas
    from the left, each on [data] itself.  It returns what the first
    sub-schema that does not raise a [SchemaError] returns, without calling
    the later ones.  If every sub-schema raises a [SchemaError], it raises
    one whose [autos] are the message "Or(...) did not validate ..."
    followed by the [autos] of the last sub-schema's error, and whose
    [errors] are the [error] of the [Or] followed by the [errors] of that
    last error; the errors of the earlier sub-schemas leave no trace (with
    no sub-schema at all, the chain is the placeholder
    [SchemaError([], [])]). *)
Theorem C5_Or_first_success_or_last_failure
    (args : list sdesc) (kw : kwargs) (data : value) :
  let sub := fun s =>
    Schema.validate s (kw_error kw) (kw_allow_wrong_keys kw) in
  (forall pre s post v,
      args = (pre ++ s :: post)%list ->
      Forall (fun a => exists x, sub a data = Raise x) pre ->
      sub s data = Return v ->
      Or.validate args kw data = Return v)
  /\ (forall xs : list SchemaError,
         Forall2 (fun a x => sub a data = Raise x) args xs ->
         Or.validate args kw data
         = Raise (mkSchemaError
                    (Some (Or_repr args ++ " did not validate " ++ repr data)
                     :: autos (last xs no_error))
                    (kw_error kw :: errors (last xs no_error))
                    None None None)).
Proof.
  intro sub. split.
  - intros pre s post v -> Hpre Hs. unfold Or.validate.
    now apply Or_loop_first_success.
  - intros xs H. unfold Or.validate. now apply Or_loop_all_fail.
Qed.

(** ** Rendering *)

Lemma not_None_present l : not_None l = present l.
Proof.
  induction l as [| [m |] r IH]; cbn; [reflexivity | now rewrite IH | exact IH].
Qed.

Lemma filter_filter_ext (A : Type) (p q r : A -> bool) (l : list A) :
  (forall a, q a && r a = p a) ->
  filter q (filter r l) = filter p l.
Proof.
  intro H. induction l as [| a l IH]; cbn; [reflexivity |].
  rewrite <- H. destruct (r a); cbn.
  - destruct (q a); now rewrite IH.
  - now rewrite andb_false_r.
Qed.

(** With [seen] the messages met so far, the comprehension keeps the first
    occurrences that are not in [seen]. *)
Lemma uniq_from_dedup_first seen l :
  uniq_from seen l = filter (fun y => negb (str_in y seen)) (dedup_first l).
Proof.
  revert seen. induction l as [| x r IH]; intro seen; [reflexivity |].
  cbn [uniq_from dedup_first filter].
  destruct (str_in x seen) eqn:Hx; cbn [negb].
  - rewrite IH. symmetry. apply filter_filter_ext. intro a.
    destruct (String.eqb a x) eqn:Hax; cbn.
    + apply String.eqb_eq in Hax. subst a. rewrite Hx. reflexivity.
    + now rewrite andb_true_r.
  - f_equal. rewrite IH. symmetry. apply filter_filter_ext. intro a.
    unfold str_in. cbn [existsb]. rewrite negb_orb. apply andb_comm.
Qed.

Lemma uniq_dedup_first l : uniq l = dedup_first l.
Proof.
  unfold uniq. rewrite uniq_from_dedup_first.
  generalize (dedup_first l). intro d.
  induction d as [| a r IH]; cbn; [reflexivity | now f_equal].
Qed.

Lemma code_render_spec (x : SchemaError) : code x = render_spec x.
Proof.
  unfold code, render_spec.
  rewrite !uniq_dedup_first, !not_None_present.
  now destruct (dedup_first (present (errors x))).
Qed.

Lemma not_None_repeat_None n l : not_None (repeat None n ++ l) = not_None l.
Proof. induction n; cbn; auto. Qed.

Lemma not_None_In (m : string) l : In m (not_None l) <-> In (Some m) l.
Proof.
  induction l as [| [m' |] r IH]; cbn.
  - tauto.
  - rewrite IH. split; intros [H | H]; auto; left; congruence.
  - rewrite IH. split; [auto | intros [H | H]; [discriminate | auto]].
Qed.

Lemma uniq_from_seen (b : string) l :
  (forall y, In y l -> y = b) -> uniq_from [b] l = [].
Proof.
  induction l as [| y r IH]; intro H; [reflexivity |].
  cbn [uniq_from str_in existsb].
  rewrite (H y (or_introl eq_refl)), String.eqb_refl. cbn [orb].
  apply IH. intros z Hz. apply H. now right.
Qed.

Lemma uniq_constant (b : string) l :
  In b l -> (forall y, In y l -> y = b) -> uniq l = [b].
Proof.
  destruct l as [| y r]; [intros [] |]. intros _ H.
  unfold uniq. cbn [uniq_from str_in existsb].
  rewrite (H y (or_introl eq_refl)). f_equal.
  apply uniq_from_seen. intros z Hz. apply H. now right.
Qed.

(** C7.  [code] is the rendering of the specification: the custom messages
    that are not [None], deduplicated keeping first occurrences and joined
    with newlines, if there is one, else the auto messages treated the same
    way.  A chain whose only custom message is ["bad!"], at any depth and
    however often the override is repeated along the chain, renders as
    ["bad!"] whatever its auto messages. *)
Theorem C7_code_renders_custom_else_auto :
  (forall x : SchemaError, code x = render_spec x)
  /\ (forall (n m : nat) (autos_ : list (option string))
             (mk : option (list sdesc)) (ik wk : option (list value)),
         code (mkSchemaError autos_
                 (repeat None n ++ Some "bad!" :: repeat None m)%list
                 mk ik wk)
         = "bad!")
  /\ (forall x : SchemaError,
         In (Some "bad!") (errors x) ->
         (forall m, In (Some m) (errors x) -> m = "bad!") ->
         code x = "bad!").
Proof.
  split; [exact code_render_spec |]. split.
  - intros n m autos_ mk ik wk. unfold code. cbn [errors].
    rewrite not_None_repeat_None. cbn [not_None].
    replace (not_None (repeat None m)) with (@nil string); [reflexivity |].
    rewrite <- (app_nil_r (repeat None m)), not_None_repeat_None.
    reflexivity.
  - intros x Hin Hall. unfold code.
    rewrite (@uniq_constant "bad!" (not_None (errors x))).
    + reflexivity.
    + now apply not_None_In.
    + intros y Hy. apply Hall. now apply not_None_In.
Qed.

(** ** The variable [x] of the mapping matcher *)

(** C8.  The variable [x] is assigned only in the handler that raises the
    value's [SchemaError] out of [validate], so it is [None] in every state
    the loop over [data.items()] reaches; and a [SchemaError] raised in the
    turn for a pair [(key, value)] is the error of this pair's own value
    against the value schema of a candidate that accepted [key], with
    [invalid_keys = [key]]. *)
Theorem C8_last_error_is_never_stale
    (items : list (sdesc * sdesc)) (e : option string) (w : option bool)
    (pre : list (value * value)) (st : dict_state) :
  let sorted_skeys :=
    sorted_skeys_of (entries (fun s => Schema.validate s e w) items) in
  dict_loop e sorted_skeys (mkState [] None []) pre = Return st ->
  st_x st = None
  /\ forall key value_ err,
       dict_step e sorted_skeys st (key, value_) = Raise err ->
       exists c nkey xv,
         In c sorted_skeys
         /\ Schema.validate (en_skey c) e w key = Return nkey
         /\ Schema.validate (en_svalue c) e w value_ = Raise xv
         /\ err = set_invalid_keys xv [key].
Proof.
  intros sorted_skeys Hpre.
  assert (Hx : st_x st = None) by exact (dict_loop_x _ _ _ _ Hpre).
  split; [exact Hx |].
  intros key value_ err Hstep.
  apply dict_step_Raise in Hstep; [| exact Hx].
  destruct (find_skey_Raise _ _ _ Hstep) as (c & nkey & xv & Hin & Hk & Hv & ->).
  destruct (sorted_skeys_entry_of _ _ _ Hin) as [Ek Ev].
  exists c, nkey, xv. rewrite <- Ek, <- Ev. auto.
Qed.

(** C8, as stated: no schema and no input make the matcher raise an
    earlier key's error under a later, unmatched key. *)
Lemma C8_stale_error_never_raised :
  ~ exists (e : option string) (w : option bool)
           (items : list (sdesc * sdesc)) (data : dict),
      stale_error e w items data.
Proof.
  intros (e & w & items & data & H). unfold stale_error in H.
  destruct H as (pre & key & value_ & post & st & x0 & err
                 & _ & Hpre & Hx & _).
  apply dict_loop_x in Hpre. cbn in Hpre. congruence.
Qed.

(** ** Instances *)

(** C2, as stated: with [{"a": int}] on [{"a": "s"}] the key ["a"] matches
    and [int] rejects ["s"]; the error [validate] raises carries
    [invalid_keys = ["a"]] and is the error of [int] on ["s"] with the same
    two chains, so it does not wrap that error. *)
Lemma C2_raised_error_is_not_wrapped :
  Schema.validate (SType TInt) None (Some true) (VStr "s")
  = Raise (SchemaError1 "'s' should be instance of 'int'" None)
  /\ Schema.validate schema_a None (Some true) (VDict [(VStr "a", VStr "s")])
     = Raise (set_invalid_keys
                (SchemaError1 "'s' should be instance of 'int'" None)
                [VStr "a"])
  /\ ~ wraps (set_invalid_keys
                (SchemaError1 "'s' should be instance of 'int'" None)
                [VStr "a"])
             (SchemaError1 "'s' should be instance of 'int'" None).
Proof.
  split; [reflexivity |]. split; [reflexivity |].
  intros (a & c & Ha & _). cbn in Ha. discriminate Ha.
Qed.

(** The key ["b"] is rejected by ["a"], accepted by ["b"], whose value
    schema [int] rejects ["s"]: the candidate [str], which accepts both,
    is not tried. *)
Lemma C2_invalid_value_instance :
  Schema.validate (SDict schema_a_b_str) None (Some true)
    (VDict [(VStr "a", VInt 1); (VStr "b", VStr "s"); (VStr "c", VInt 2)])
  = Raise (mkSchemaError [Some "'s' should be instance of 'int'"] [None]
             None (Some [VStr "b"]) None).
Proof.
  refine (@C2_invalid_value_raises_at_once
            schema_a_b_str None (Some true)
            [(VStr "a", VInt 1)] [(VStr "c", VInt 2)]
            (VStr "b") (VStr "s") (VStr "b")
            (mkState [(VStr "a", VInt 1)] None [0%nat])
            [entry_at 0 (SLit (AStr "a")) (SType TInt)]
            [entry_at 2 (SType TStr) (SType TStr)]
            (entry_at 1 (SLit (AStr "b")) (SType TInt))
            (SchemaError1 "'s' should be instance of 'int'" None)
            _ _ _ _ _).
  - reflexivity.
  - reflexivity.
  - constructor; [| constructor]. eexists. reflexivity.
  - reflexivity.
  - reflexivity.
Defined.

(** [Or(int, str)] returns ["x"] from its second sub-schema, and on [None]
    keeps the chain of [str], the last one tried. *)
Lemma C5_Or_instance :
  Or.validate [SType TInt; SType TStr] NoKw (VStr "x") = Return (VStr "x")
  /\ Or.validate [SType TInt; SType TStr] NoKw VNone
     = Raise (mkSchemaError
                [Some "Or(<class 'int'>, <class 'str'>) did not validate None";
                 Some "None should be instance of 'str'"]
                [None; None] None None None).
Proof.
  split.
  - refine (proj1 (@C5_Or_first_success_or_last_failure
                     [SType TInt; SType TStr] NoKw (VStr "x"))
                  [SType TInt] (SType TStr) [] (VStr "x") _ _ _).
    + reflexivity.
    + constructor; [| constructor]. eexists. reflexivity.
    + reflexivity.
  - refine (proj2 (@C5_Or_first_success_or_last_failure
                     [SType TInt; SType TStr] NoKw VNone)
                  [SchemaError1 "None should be instance of 'int'" None;
                   SchemaError1 "None should be instance of 'str'" None] _).
    constructor; [reflexivity |]. constructor; [reflexivity | constructor].
Defined.

(** The override ["bad!"] repeated along a chain of three levels hides the
    auto messages. *)
Lemma C7_code_instance :
  code (mkSchemaError
          [Some "Or(1) did not validate 2"; None; Some "1 does not match 2"]
          [Some "bad!"; None; Some "bad!"] None None None)
  = "bad!".
Proof.
  refine (proj2 (proj2 C7_code_renders_custom_else_auto)
            (mkSchemaError
               [Some "Or(1) did not validate 2"; None;
                Some "1 does not match 2"]
               [Some "bad!"; None; Some "bad!"] None None None) _ _).
  - cbn. now left.
  - cbn. intros m [H | [H | [H | []]]]; congruence.
Defined.

(** After [{"a": 1}] has gone through the loop of [{"a": int}], [x] is
    unset, and the error raised when ["a"] comes with the value ["s"] is the
    error of [int] on ["s"]. *)
Lemma C8_never_stale_instance :
  st_x (mkState [(VStr "a", VInt 1)] None [0%nat]) = None
  /\ exists c nkey xv,
       In c [entry_at 0 (SLit (AStr "a")) (SType TInt)]
       /\ Schema.validate (en_skey c) None (Some true) (VStr "a")
          = Return nkey
       /\ Schema.validate (en_svalue c) None (Some true) (VStr "s")
          = Raise xv
       /\ mkSchemaError [Some "'s' should be instance of 'int'"] [None]
            None (Some [VStr "a"]) None
          = set_invalid_keys xv [VStr "a"].
Proof.
  destruct (@C8_last_error_is_never_stale
              [(SLit (AStr "a"), SType TInt)] None (Some true)
              [(VStr "a", VInt 1)]
              (mkState [(VStr "a", VInt 1)] None [0%nat]) eq_refl)
    as [Hx Hraise].
  split; [exact Hx |].
  exact (Hraise (VStr "a") (VStr "s")
           (mkSchemaError [Some "'s' should be instance of 'int'"] [None]
              None (Some [VStr "a"]) None)
           eq_refl).
Defined.

(* ================================================================== *)
(** * Further properties of the module *)
(* ================================================================== *)

(** ** Literals *)

Lemma atom_eq_refl (a : atom) : atom_eq a a = true.
Proof.
  destruct a as [| b | z | s]; cbn.
  - reflexivity.
  - now destruct b.
  - apply Z.eqb_refl.
  - apply String.eqb_refl.
Qed.

Lemma atom_eq_sym (a b : atom) : atom_eq a b = atom_eq b a.
Proof.
  destruct a as [| x | x | x], b as [| y | y | y]; cbn; try reflexivity.
  - now destruct x, y.
  - apply Z.eqb_sym.
  - apply String.eqb_sym.
Qed.

Lemma atom_eq_trans (a b c : atom) :
  atom_eq a b = true -> atom_eq b c = true -> atom_eq a c = true.
Proof.
  destruct a as [| x | x | x], b as [| y | y | y], c as [| z | z | z];
    cbn [atom_eq]; intros H1 H2; try discriminate; try reflexivity;
    rewrite ?Z.eqb_eq, ?String.eqb_eq, ?Bool.eqb_true_iff in *;
    try congruence;
    repeat match goal with t : bool |- _ => destruct t end; lia.
Qed.

(** [Schema(a).validate(a)] returns [a] for every literal [a]; on any data
    the result is the data itself (not the literal) when [a == data], and
    the "does not match" error, with the error override as its only custom
    message, otherwise. *)
Theorem literal_accepts_itself_and_returns_data
    (a : atom) (e : option string) (w : option bool) :
  Schema.validate (SLit a) e w (VAtom a) = Return (VAtom a)
  /\ forall data : value,
       Schema.validate (SLit a) e w data
       = if py_eq (VAtom a) data then Return data
         else Raise (mkSchemaError
                       [Some (repr_atom a ++ " does not match " ++ repr data)]
                       [e] None None None).
Proof.
  split; [| reflexivity].
  cbn. unfold validate_comparable. cbn. now rewrite atom_eq_refl.
Qed.

(** ** Composition of [And] and of [Or] *)

Lemma And_loop_app ss1 ss2 data :
  And_loop (ss1 ++ ss2) data = (d <- And_loop ss1 data ;; And_loop ss2 d).
Proof.
  revert data. induction ss1 as [| s r IH]; intro data; cbn; [reflexivity |].
  destruct (s data); cbn; auto.
Qed.

(** [And( *a, *b).validate] is [And( *a).validate] followed, on what it
    returns, by [And( *b).validate] with the same keyword arguments; an
    exception of the first part is the exception of the whole. *)
Theorem And_validate_app (a b : list sdesc) (kw : kwargs) (data : value) :
  And.validate (a ++ b) kw data
  = (d <- And.validate a kw data ;; And.validate b kw d).
Proof. unfold And.validate. rewrite map_app. apply And_loop_app. Qed.

Lemma Or_loop_Return_indep self1 self2 e1 e2 ss x1 x2 data v :
  Or_loop self1 e1 ss x1 data = Return v ->
  Or_loop self2 e2 ss x2 data = Return v.
Proof.
  revert x1 x2. induction ss as [| s r IH]; intros x1 x2; cbn.
  - discriminate.
  - destruct (s data); eauto; discriminate.
Qed.

Lemma Or_loop_app_Return self1 self2 error ss1 ss2 x data v :
  Or_loop self1 error ss1 x data = Return v ->
  Or_loop self2 error (ss1 ++ ss2) x data = Return v.
Proof.
  revert x. induction ss1 as [| s r IH]; intro x; cbn.
  - discriminate.
  - destruct (s data); eauto.
Qed.

Lemma Or_loop_app_RaiseOther self1 self2 error ss1 ss2 x data ex :
  Or_loop self1 error ss1 x data = RaiseOther ex ->
  Or_loop self2 error (ss1 ++ ss2) x data = RaiseOther ex.
Proof.
  revert x. induction ss1 as [| s r IH]; intro x; cbn.
  - discriminate.
  - destruct (s data); eauto; discriminate.
Qed.

Lemma Or_loop_app_Raise self1 self2 error ss1 ss2 x data y :
  Or_loop self1 error ss1 x data = Raise y ->
  exists x', Or_loop self2 error (ss1 ++ ss2) x data
             = Or_loop self2 error ss2 x' data.
Proof.
  revert x. induction ss1 as [| s r IH]; intro x; cbn.
  - intros _. now exists x.
  - destruct (s data); eauto; discriminate.
Qed.

(** Adding alternatives at the end of an [Or] keeps what it returned: if
    [Or( *a)] returns [v], so does [Or( *a, *b)]; if [Or( *a)] raises a
    [SchemaError] and [Or( *b)] returns [v], then [Or( *a, *b)] returns [v];
    and another exception of [Or( *a)] is the exception of [Or( *a, *b)]. *)
Theorem Or_validate_app (a b : list sdesc) (kw : kwargs) (data : value) :
  (forall v, Or.validate a kw data = Return v ->
             Or.validate (a ++ b) kw data = Return v)
  /\ (forall x v, Or.validate a kw data = Raise x ->
                  Or.validate b kw data = Return v ->
                  Or.validate (a ++ b) kw data = Return v)
  /\ (forall ex, Or.validate a kw data = RaiseOther ex ->
                 Or.validate (a ++ b) kw data = RaiseOther ex).
Proof.
  unfold Or.validate. rewrite map_app. repeat split.
  - intros v H. eapply Or_loop_app_Return; eauto.
  - intros x v Ha Hb.
    pose proof (fun self2 ss2 =>
                  @Or_loop_app_Raise _ self2 _ _ ss2 _ _ _ Ha) as Happ.
    destruct (Happ (Or_repr (a ++ b))
                (map (fun s => Schema.validate s (kw_error kw)
                                 (kw_allow_wrong_keys kw)) b))
      as [x' ->].
    eapply Or_loop_Return_indep; eauto.
  - intros ex H. eapply Or_loop_app_RaiseOther; eauto.
Qed.

Lemma Or_validate_app_instance :
  Or.validate ([SType TInt] ++ [SType TStr]) NoKw (VInt 5) = Return (VInt 5)
  /\ Or.validate ([SType TInt] ++ [SType TStr]) NoKw (VStr "x")
     = Return (VStr "x").
Proof.
  split.
  - exact (proj1 (Or_validate_app [SType TInt] [SType TStr] NoKw (VInt 5))
             (VInt 5) eq_refl).
  - exact (proj1 (proj2 (Or_validate_app [SType TInt] [SType TStr] NoKw
                           (VStr "x")))
             _ (VStr "x") eq_refl eq_refl).
Defined.

(** ** Exceptions that are not [SchemaError] *)



(** ** Key details under a validator *)



(** ** Schemas that only check return their input *)

Lemma validate_validator_Return srepr e data call v :
  validate_validator srepr e data call = Return v -> call = Return v.
Proof. destruct call; cbn; congruence. Qed.

Lemma validate_type_Return t e data v :
  validate_type t e data = Return v -> v = data /\ isinstance data t = true.
Proof.
  unfold validate_type. destruct (isinstance data t); [| discriminate].
  intros [= <-]. auto.
Qed.

Lemma And_loop_returns_input ss :
  Forall returns_input ss -> returns_input (And_loop ss).
Proof.
  induction 1 as [| f r Hf _ IH]; intros d v; cbn.
  - now intros [= <-].
  - destruct (f d) as [d' | |] eqn:Hd; cbn; try discriminate.
    intro H. apply IH in H. apply Hf in Hd. congruence.
Qed.

Lemma Or_loop_returns_input self error ss x :
  Forall returns_input ss -> returns_input (Or_loop self error ss x).
Proof.
  intro H. revert x. induction H as [| f r Hf _ IH]; intros x d v; cbn.
  - discriminate.
  - destruct (f d) as [d' | |] eqn:Hd; try discriminate.
    + intros [= <-]. now apply Hf.
    + apply IH.
Qed.

Lemma validate_each_returns_input o l l' :
  returns_input o -> validate_each o l = Return l' -> l' = l.
Proof.
  intro Ho. revert l'. induction l as [| d r IH]; intro l'; cbn.
  - now intros [= <-].
  - destruct (o d) as [v | |] eqn:Hd; cbn; try discriminate.
    destruct (validate_each o r) as [vs | |]; cbn; try discriminate.
    intros [= <-]. rewrite (Ho _ _ Hd), (IH vs eq_refl). reflexivity.
Qed.

Lemma plain_args (P : sdesc -> Prop) args :
  Forall (fun s => plain s = true -> P s) args ->
  forallb plain args = true -> Forall P args.
Proof.
  induction 1 as [| s r Hs _ IH]; cbn; [constructor |].
  intro H. apply andb_prop in H as [H1 H2]. constructor; auto.
Qed.

Lemma plain_returns_input (s : sdesc) :
  plain s = true -> forall e w, returns_input (Schema.validate s e w).
Proof.
  induction s using sdesc_induction; cbn [plain]; intros Hp e0 w0 dat v0;
    cbn [Schema.validate]; try discriminate.
  - unfold validate_comparable. destruct (py_eq _ _); [| discriminate].
    now intros [= <-].
  - unfold validate_callable. destruct (c_call f dat) as [r | |];
      try discriminate.
    destruct (truthy r); [| discriminate]. now intros [= <-].
  - intro Hv. now apply validate_type_Return in Hv.
  - intro Hv. apply validate_validator_Return in Hv.
    revert Hv. apply And_loop_returns_input.
    apply Forall_map. eapply Forall_impl; [| exact (plain_args _ H Hp)].
    cbn. intros a Ha. apply Ha.
  - intro Hv. apply validate_validator_Return in Hv.
    revert Hv. apply Or_loop_returns_input.
    apply Forall_map. eapply Forall_impl; [| exact (plain_args _ H Hp)].
    cbn. intros a Ha. apply Ha.
  - intro Hv. apply validate_validator_Return in Hv. revert Hv.
    now apply IHs.
  - intro Hv. apply validate_validator_Return in Hv. revert Hv.
    now apply IHs.
  - destruct (validate_type (container_type c) e0 dat) as [d' | |] eqn:Ht;
      cbn [bind]; try discriminate.
    apply validate_type_Return in Ht as [-> _].
    assert (Ho : returns_input
                   (Or_loop (Or_repr elems) e0
                      (map (fun a => Schema.validate a e0 None) elems)
                      no_error)).
    { apply Or_loop_returns_input. apply Forall_map.
      eapply Forall_impl; [| exact (plain_args _ H Hp)].
      cbn. intros a Ha. apply Ha. }
    unfold validate_iterable. destruct dat as [a | l | l | items];
      try discriminate.
    + destruct (validate_each _ l) as [l' | |] eqn:Hl; cbn; try discriminate.
      intros [= <-]. now rewrite (validate_each_returns_input _ Ho Hl).
    + destruct (validate_each _ l) as [l' | |] eqn:Hl; cbn; try discriminate.
      intros [= <-]. now rewrite (validate_each_returns_input _ Ho Hl).
Qed.

(** A schema without [Use] and without mapping, whatever its predicates,
    returns the very value it was given when it returns; so validating
    what it returned returns it again. *)
Theorem plain_schema_returns_its_input
    (s : sdesc) (e : option string) (w : option bool) (data v : value) :
  plain s = true ->
  Schema.validate s e w data = Return v ->
  v = data /\ Schema.validate s e w v = Return v.
Proof.
  intros Hp Hv. assert (v = data) by exact (@plain_returns_input s Hp e w data v Hv).
  subst v. auto.
Qed.

(** [Schema([Or(int, None)])] on [[1, None, True]]. *)
Lemma plain_schema_instance :
  VList [VInt 1; VNone; VBool true] = VList [VInt 1; VNone; VBool true]
  /\ Schema.validate
       (SIter CList [SOr [SType TInt; SLit ANone] NoKw]) None (Some true)
       (VList [VInt 1; VNone; VBool true])
     = Return (VList [VInt 1; VNone; VBool true]).
Proof.
  exact (@plain_schema_returns_its_input
           (SIter CList [SOr [SType TInt; SLit ANone] NoKw]) None (Some true)
           (VList [VInt 1; VNone; VBool true])
           (VList [VInt 1; VNone; VBool true]) eq_refl eq_refl).
Defined.

(** ** The error override heads every chain *)

Lemma entries_from_In_items rec i items en :
  In en (entries_from rec i items) -> In (en_skey en, en_svalue en) items.
Proof.
  revert i. induction items as [| [k v] r IH]; intro i; cbn; [tauto |].
  intros [<- | H]; [now left | right; eauto].
Qed.

Lemma sorted_skeys_In_items rec items en :
  In en (sorted_skeys_of (entries rec items)) ->
  In (en_skey en, en_svalue en) items.
Proof.
  unfold sorted_skeys_of. rewrite sorted_In. apply entries_from_In_items.
Qed.

Lemma dict_loop_Raise e sorted_skeys st items x :
  st_x st = None ->
  dict_loop e sorted_skeys st items = Raise x ->
  exists key value_,
    In (key, value_) items /\ find_skey key value_ sorted_skeys = Raise x.
Proof.
  revert st. induction items as [| [key value_] r IH]; intros st Hx;
    cbn [dict_loop]; [discriminate |].
  destruct (dict_step e sorted_skeys st (key, value_)) as [st1 | x1 |]
    eqn:Hstep; cbn [bind]; try discriminate.
  - intro H.
    assert (Hx1 : st_x st1 = None)
      by (rewrite (dict_step_x _ _ _ _ Hstep); exact Hx).
    destruct (IH st1 Hx1 H) as (k & v & Hin & Hf).
    exists k, v. split; [now right | exact Hf].
  - intros [= <-]. exists key, value_. split; [now left |].
    eapply dict_step_Raise; eauto.
Qed.

Lemma Or_loop_Raise_errors self error ss x0 data x :
  Or_loop self error ss x0 data = Raise x ->
  exists rest, errors x = error :: rest.
Proof.
  revert x0. induction ss as [| s r IH]; intro x0; cbn.
  - intros [= <-]. cbn. eauto.
  - destruct (s data); eauto; discriminate.
Qed.

Lemma validate_each_Raise o l x :
  validate_each o l = Raise x -> exists d, In d l /\ o d = Raise x.
Proof.
  induction l as [| d r IH]; cbn; [discriminate |].
  destruct (o d) as [v | x1 |] eqn:Hd; cbn [bind]; try discriminate.
  - destruct (validate_each o r) as [vs | x2 |]; cbn [bind];
      try discriminate.
    intros [= <-]. destruct (IH eq_refl) as (d' & Hin & Hd').
    exists d'. auto.
  - intros [= <-]. exists d. auto.
Qed.

Lemma dict_finish_Raise_errors e w s data st x :
  dict_finish e w s data st = Raise x -> errors x = [e].
Proof.
  unfold dict_finish.
  destruct (negb (forallb _ _)); [now intros [= <-] |].
  destruct (_ && _); [now intros [= <-] | discriminate].
Qed.

Lemma validate_errors_head (s : sdesc) :
  forall e w data x,
    Schema.validate s e w data = Raise x -> exists rest, errors x = e :: rest.
Proof.
  induction s using sdesc_induction; intros e0 w0 dat x0;
    try (cbn [Schema.validate];
         unfold validate_validator, validate_callable, validate_comparable,
           validate_type;
         repeat match goal with
                | |- context [match ?r with _ => _ end] => destruct r
                | |- context [if ?b then _ else _] => destruct b
                end;
         intros [= <-]; cbn; eauto; fail).
  - (* DICT *)
    rewrite validate_SDict. unfold validate_dict, validate_type.
    destruct (isinstance dat TDict); cbn [bind];
      [| intros [= <-]; cbn; eauto].
    destruct dat as [a | l | l | data_items]; try discriminate.
    destruct (dict_loop _ _ _ data_items) as [st | x1 |] eqn:Hloop;
      cbn [bind]; try discriminate.
    + intro Hf. apply dict_finish_Raise_errors in Hf. eauto.
    + intros [= <-]. apply dict_loop_Raise in Hloop; [| reflexivity].
      destruct Hloop as (key & value_ & _ & Hfind).
      apply find_skey_Raise in Hfind
        as (c & nkey & xv & Hin & _ & Hv & ->).
      destruct (sorted_skeys_entry_of _ _ _ Hin) as [_ Ev].
      rewrite Ev in Hv. apply sorted_skeys_In_items in Hin.
      rewrite Forall_forall in H. destruct (H _ Hin) as [_ IHv].
      cbn [snd] in IHv. apply IHv in Hv. exact Hv.
  - (* ITERABLE *)
    cbn [Schema.validate]. unfold validate_type.
    destruct (isinstance dat (container_type c)); cbn [bind];
      [| intros [= <-]; cbn; eauto].
    unfold validate_iterable.
    destruct dat as [a | l | l | data_items]; try discriminate;
      destruct (validate_each _ l) as [l' | x1 |] eqn:Hl; cbn [bind];
      try discriminate; intros [= <-];
      apply validate_each_Raise in Hl as (d0 & _ & Hd);
      eapply Or_loop_Raise_errors; eauto.
Qed.

(** Every [SchemaError] that [Schema(s, error=e).validate] raises has [e]
    as the first entry of its custom chain, whatever the flavor of [s] and
    the depth of the failure; so when [e] is a message, the rendering of the
    error starts with it. *)
Theorem error_override_heads_every_failure
    (s : sdesc) (e : option string) (w : option bool) (data : value)
    (x : SchemaError) :
  Schema.validate s e w data = Raise x ->
  (exists rest, errors x = e :: rest)
  /\ forall msg, e = Some msg ->
                 exists tail, code x = join nl (msg :: tail).
Proof.
  intro Hv. destruct (validate_errors_head s _ _ _ Hv) as [rest Hrest].
  split; [eauto |].
  intros msg ->. unfold code. rewrite Hrest. cbn [not_None].
  unfold uniq. cbn [uniq_from str_in existsb]. eauto.
Qed.

(** [Schema({"a": [int]}, error="bad!")] on [{"a": [1, "s"]}]: the failure
    of [int] on ["s"], two levels down, is rendered as ["bad!"]. *)
Lemma error_override_instance :
  (exists rest,
      [Some "bad!"; Some "bad!"] = Some "bad!" :: rest)
  /\ forall msg, Some "bad!" = Some msg ->
       exists tail,
         code (mkSchemaError
                 [Some "Or(<class 'int'>) did not validate 's'";
                  Some "'s' should be instance of 'int'"]
                 [Some "bad!"; Some "bad!"]
                 (@None (list sdesc)) (Some [VStr "a"]) None)
         = join nl (msg :: tail).
Proof.
  exact (@error_override_heads_every_failure
           (SDict [(SLit (AStr "a"), SIter CList [SType TInt])])
           (Some "bad!") (Some true)
           (VDict [(VStr "a", VList [VInt 1; VStr "s"])])
           (mkSchemaError
              [Some "Or(<class 'int'>) did not validate 's'";
               Some "'s' should be instance of 'int'"]
              [Some "bad!"; Some "bad!"] None (Some [VStr "a"]) None)
           eq_refl).
Defined.

(** ** Containers of alternatives *)

Lemma validate_each_Forall2 o l l' :
  validate_each o l = Return l' <-> Forall2 (fun d d' => o d = Return d') l l'.
Proof.
  split.
  - revert l'. induction l as [| d r IH]; intro l'; cbn.
    + intros [= <-]. constructor.
    + destruct (o d) as [v | |] eqn:Hd; cbn [bind]; try discriminate.
      destruct (validate_each o r) as [vs | |]; cbn [bind]; try discriminate.
      intros [= <-]. constructor; auto.
  - induction 1 as [| d d' r r' Hd _ IH]; cbn; [reflexivity |].
    rewrite Hd. cbn [bind]. rewrite IH. reflexivity.
Qed.

Lemma isinstance_container c data :
  isinstance data (container_type c) = true ->
  exists l, data = container_value c l.
Proof.
  destruct c, data as [[| b | z | s] | l | l | items]; cbn;
    try discriminate; eauto.
Qed.

(** A container of alternatives returns exactly when the data is a
    container of the schema's own kind (a list for a list, a tuple for a
    tuple) each of whose elements the [Or] of the alternatives, built with
    the error override and no wrong-key policy, returns a value for; the
    result is a container of the same kind holding these values, in the
    order of the data. *)
Theorem iterable_rebuilds_container
    (c : container) (elems : list sdesc) (e : option string)
    (w : option bool) (data v : value) :
  Schema.validate (SIter c elems) e w data = Return v
  <-> exists l l',
        data = container_value c l /\ v = container_value c l'
        /\ Forall2 (fun d d' => Or.validate elems (KwError e) d = Return d')
                   l l'.
Proof.
  rewrite validate_SIter. split.
  - destruct (validate_type (container_type c) e data) as [d' | |] eqn:Ht;
      cbn [bind]; try discriminate.
    apply validate_type_Return in Ht as [-> Hi].
    destruct (isinstance_container c data Hi) as [l ->].
    destruct c; cbn [container_value validate_iterable];
      destruct (validate_each _ l) as [l' | |] eqn:Hl; cbn [bind];
      try discriminate; intros [= <-];
      exists l, l'; repeat split; now apply validate_each_Forall2.
  - intros (l & l' & -> & -> & H). apply validate_each_Forall2 in H.
    destruct c; cbn [container_value]; cbn; rewrite H; reflexivity.
Qed.

(** [Schema((int, str))] on [(1, "a")] returns a tuple. *)
Lemma iterable_rebuilds_instance :
  Schema.validate (SIter CTuple [SType TInt; SType TStr]) None (Some true)
    (VTuple [VInt 1; VStr "a"])
  = Return (VTuple [VInt 1; VStr "a"]).
Proof.
  apply (proj2 (iterable_rebuilds_container CTuple [SType TInt; SType TStr]
                  None (Some true) (VTuple [VInt 1; VStr "a"])
                  (VTuple [VInt 1; VStr "a"]))).
  exists [VInt 1; VStr "a"], [VInt 1; VStr "a"].
  repeat split. repeat constructor.
Defined.

(** ** The empty schema dict and the empty input *)

Lemma dict_loop_no_skeys e st items :
  dict_loop e [] st items = Return st.
Proof.
  induction items as [| [key value_] r IH]; cbn; [reflexivity | exact IH].
Qed.

Lemma filter_all (A : Type) (p : A -> bool) (l : list A) :
  (forall a, p a = true) -> filter p l = l.
Proof.
  intro H. induction l as [| a r IH]; cbn; [reflexivity |].
  now rewrite H, IH.
Qed.

(** [Schema({})] returns [{}] on every dict when extra keys are allowed,
    dropping every pair; when they are not, it returns [{}] on [{}] only
    and raises on any other dict, [wrong_keys] being all the keys of the
    input in the order of their [repr]. *)
Theorem empty_schema_dict_drops_or_rejects_every_key
    (e : option string) (w : option bool) (data : dict) :
  Schema.validate (SDict []) e w (VDict data)
  = if not_allow w && negb (0 =? List.length data)%nat then
      Raise (mkSchemaError
               [Some ("Wrong keys "
                      ++ join ", " (map repr (sorted String.leb repr
                                                (keys data)))
                      ++ " in " ++ repr (VDict data))]
               [e] None None (Some (sorted String.leb repr (keys data))))
    else Return (VDict []).
Proof.
  rewrite validate_SDict. unfold validate_dict.
  change (validate_type TDict e (VDict data))
    with (@Return sdesc value (VDict data)).
  cbn [bind].
  change (sorted_skeys_of (entries (fun s => Schema.validate s e w) []))
    with (@nil entry).
  rewrite dict_loop_no_skeys. cbn [bind]. unfold dict_finish.
  cbn [entries entries_from filter forallb negb st_new st_coverage
       List.length apply_defaults].
  destruct (not_allow w && negb (0 =? List.length data)%nat);
    [| reflexivity].
  rewrite filter_all by reflexivity. reflexivity.
Qed.

Lemma entries_from_required rec i items :
  map en_skey
    (filter (fun en => negb (covered [] en))
       (filter (fun en => negb (is_Optional (en_skey en)))
          (entries_from rec i items)))
  = required_keys items.
Proof.
  unfold required_keys. revert i.
  induction items as [| [k v] r IH]; intro i; cbn; [reflexivity |].
  destruct (is_Optional k); cbn; [apply IH |]. f_equal. apply IH.
Qed.

Lemma entries_from_defaults rec i items new :
  apply_defaults new
    (filter (fun en => has_default en && negb (covered [] en))
       (entries_from rec i items))
  = item_defaults new items.
Proof.
  revert i new. induction items as [| [k v] r IH]; intros i new; cbn;
    [reflexivity |].
  unfold has_default at 1. cbn [en_skey].
  destruct k as [| | | | | | | s' e' w' [d |] | |]; cbn; apply IH.
Qed.

Lemma entries_from_all_covered rec i items :
  forallb (covered [])
    (filter (fun en => negb (is_Optional (en_skey en)))
       (entries_from rec i items))
  = match required_keys items with [] => true | _ :: _ => false end.
Proof.
  unfold required_keys. revert i.
  induction items as [| [k v] r IH]; intro i; cbn; [reflexivity |].
  destruct (is_Optional k); cbn; [apply IH | reflexivity].
Qed.

(** The empty dict in the model, which lists the keys and applies the
    defaults in the order of the schema dict. *)
Lemma validate_SDict_empty_input
    (items : list (sdesc * sdesc)) (e : option string) (w : option bool) :
  Schema.validate (SDict items) e w (VDict [])
  = match required_keys items with
    | [] => Return (VDict (item_defaults [] items))
    | _ :: _ =>
        Raise (mkSchemaError
                 [Some ("Missing keys: "
                        ++ join ", " (map repr_schema (required_keys items)))]
                 [e] (Some (required_keys items)) None None)
    end.
Proof.
  rewrite validate_SDict. unfold validate_dict.
  change (validate_type TDict e (VDict []))
    with (@Return sdesc value (VDict [])).
  cbn [bind dict_loop].
  unfold dict_finish, entries. cbn [st_new st_coverage].
  rewrite entries_from_all_covered.
  destruct (required_keys items) as [| k r] eqn:Hreq; cbn [negb].
  - rewrite andb_false_r. now rewrite entries_from_defaults.
  - rewrite <- map_map with (f := en_skey) (g := repr_schema).
    rewrite entries_from_required, Hreq. reflexivity.
Qed.

(** ** Coverage *)

Lemma entries_from_index_ge rec i items en :
  In en (entries_from rec i items) -> (i <= en_index en)%nat.
Proof.
  revert i. induction items as [| [k v] r IH]; intro i; cbn; [tauto |].
  intros [<- | H]; [cbn; lia |]. apply IH in H. lia.
Qed.

(** Two entries of a schema dict with the same position are the same. *)
Lemma entries_from_index_inj rec i items en1 en2 :
  In en1 (entries_from rec i items) -> In en2 (entries_from rec i items) ->
  en_index en1 = en_index en2 -> en1 = en2.
Proof.
  revert i. induction items as [| [k v] r IH]; intro i; cbn; [tauto |].
  intros [<- | H1] [<- | H2]; cbn; intro Hi.
  - reflexivity.
  - apply entries_from_index_ge in H2. lia.
  - apply entries_from_index_ge in H1. cbn in Hi. lia.
  - eauto.
Qed.

Lemma entries_from_In rec i items k v :
  In (k, v) items ->
  exists en, In en (entries_from rec i items)
             /\ en_skey en = k /\ en_svalue en = v.
Proof.
  revert i. induction items as [| [k' v'] r IH]; intro i; cbn; [tauto |].
  intros [[= -> ->] | H].
  - eexists. split; [now left | split; reflexivity].
  - destruct (IH (S i) H) as (en & Hin & Hk & Hv). exists en. auto.
Qed.

Lemma covered_In coverage en :
  covered coverage en = true <-> In (en_index en) coverage.
Proof.
  unfold covered. rewrite existsb_exists. split.
  - intros (i & Hin & Heq). apply Nat.eqb_eq in Heq. now subst.
  - intro H. exists (en_index en). split; [exact H | apply Nat.eqb_refl].
Qed.

Lemma find_skey_Some key value_ cands en nkey nvalue :
  find_skey key value_ cands = Return (Some (en, nkey, nvalue)) ->
  In en cands /\ en_validate_skey en key = Return nkey
  /\ en_validate_svalue en value_ = Return nvalue.
Proof.
  induction cands as [| c r IH]; cbn; [discriminate |].
  destruct (en_validate_skey c key) as [nk | |] eqn:Hk; try discriminate.
  - destruct (en_validate_svalue c value_) as [nv | |] eqn:Hv;
      try discriminate.
    intros [= <- <- <-]. auto.
  - intro H. apply IH in H as (Hin & H1 & H2). auto.
Qed.

(** What a turn of the loop that goes on does to [new] and [coverage]. *)
Lemma dict_step_Return e sorted_skeys st key value_ st' :
  dict_step e sorted_skeys st (key, value_) = Return st' ->
  st' = st
  \/ exists en nkey nvalue,
       In en sorted_skeys
       /\ en_validate_skey en key = Return nkey
       /\ en_validate_svalue en value_ = Return nvalue
       /\ st_new st' = dict_set (st_new st) nkey nvalue
       /\ st_coverage st' = en_index en :: st_coverage st.
Proof.
  unfold dict_step.
  destruct (find_skey key value_ sorted_skeys) as [found | |] eqn:Hf;
    cbn [bind]; try discriminate.
  destruct found as [[[en nkey] nvalue] |].
  - apply find_skey_Some in Hf as (Hin & Hk & Hv).
    unfold setitem. destruct (unhashable nkey); cbn [bind]; try discriminate.
    intros [= <-]. right. exists en, nkey, nvalue. cbn. auto 6.
  - destruct (skey_is_not_None sorted_skeys).
    + destruct (st_x st).
      * destruct (invalid_value_for_key key); discriminate.
      * intros [= <-]. now left.
    + intros [= <-]. now left.
Qed.

(** A position enters [coverage] only when the key schema at that position
    has returned on an input key. *)
Lemma dict_loop_coverage e sorted_skeys items st st' i :
  dict_loop e sorted_skeys st items = Return st' ->
  In i (st_coverage st') ->
  In i (st_coverage st)
  \/ exists en key nkey,
       In en sorted_skeys /\ en_index en = i /\ In key (keys items)
       /\ en_validate_skey en key = Return nkey.
Proof.
  revert st. induction items as [| [key value_] r IH]; intro st;
    cbn [dict_loop].
  - intros [= <-]. auto.
  - destruct (dict_step e sorted_skeys st (key, value_)) as [st1 | |]
      eqn:Hstep; cbn [bind]; try discriminate.
    intros Hloop Hi. destruct (IH _ Hloop Hi) as [Hin | Hex].
    + apply dict_step_Return in Hstep
        as [-> | (en & nkey & nvalue & He & Hk & _ & _ & Hc)]; [auto |].
      rewrite Hc in Hin. destruct Hin as [<- | Hin]; [| auto].
      right. exists en, key, nkey. cbn. auto.
    + destruct Hex as (en & k & nkey & He & Hidx & Hkin & Hk).
      right. exists en, k, nkey. cbn. auto.
Qed.

Lemma dict_finish_uncovered e w s data st en :
  In en s -> is_Optional (en_skey en) = false ->
  covered (st_coverage st) en = false ->
  exists x ks,
    dict_finish e w s data st = Raise x
    /\ missing_keys x = Some ks /\ In (en_skey en) ks.
Proof.
  intros Hin Hopt Hcov. unfold dict_finish.
  set (required := filter (fun en => negb (is_Optional (en_skey en))) s).
  assert (Hreq : In en required).
  { apply filter_In. split; [exact Hin | now rewrite Hopt]. }
  assert (Hall : forallb (covered (st_coverage st)) required = false).
  { apply not_true_is_false. intro H. rewrite forallb_forall in H.
    rewrite (H _ Hreq) in Hcov. discriminate. }
  rewrite Hall. cbn [negb]. do 2 eexists. split; [reflexivity |].
  split; [reflexivity |]. apply in_map. apply filter_In.
  split; [exact Hreq | now rewrite Hcov].
Qed.

(** A key of the schema dict that is not [Optional] and whose schema
    returns on no key of the input makes validation fail: [validate] never
    returns, and the [SchemaError] it raises either lists this key in
    [missing_keys] or is the error of an input pair's value, tagged with that
    pair's key. *)
Theorem unmatched_required_key_fails
    (items : list (sdesc * sdesc)) (e : option string) (w : option bool)
    (data : dict) (k sv : sdesc) :
  In (k, sv) items ->
  is_Optional k = false ->
  (forall key nkey, In key (keys data) ->
                    Schema.validate k e w key <> Return nkey) ->
  match Schema.validate (SDict items) e w (VDict data) with
  | Return _ => False
  | Raise x =>
      (exists ks, missing_keys x = Some ks /\ In k ks)
      \/ (exists key, In key (keys data) /\ invalid_keys x = Some [key])
  | RaiseOther _ => True
  end.
Proof.
  intros Hitem Hopt Hrej.
  rewrite validate_SDict. unfold validate_dict.
  change (validate_type TDict e (VDict data))
    with (@Return sdesc value (VDict data)).
  cbn [bind].
  set (rec := fun s => Schema.validate s e w).
  destruct (dict_loop e (sorted_skeys_of (entries rec items))
              (mkState [] None []) data) as [st | x |] eqn:Hloop;
    cbn [bind]; [| | exact I].
  - destruct (entries_from_In rec 0 items k sv Hitem)
      as (en0 & Hin0 & Hk0 & _).
    assert (Hcov : covered (st_coverage st) en0 = false).
    { apply not_true_is_false. intro Hc. apply covered_In in Hc.
      destruct (dict_loop_coverage _ _ _ _ _ Hloop Hc) as [[] | Hex].
      destruct Hex as (en & key & nkey & Hen & Hidx & Hkey & Hacc).
      assert (Hen' : In en (entries rec items)).
      { unfold sorted_skeys_of in Hen. now rewrite sorted_In in Hen. }
      assert (en = en0)
        by (eapply entries_from_index_inj; eauto).
      subst en.
      destruct (entries_from_entry_of rec 0 items en0 Hin0) as [Ek _].
      rewrite Ek, Hk0 in Hacc. exact (Hrej _ _ Hkey Hacc). }
    rewrite <- Hk0 in Hopt.
    destruct (dict_finish_uncovered e w (entries rec items) data st en0
                Hin0 Hopt Hcov) as (x & ks & -> & Hm & Hks).
    left. exists ks. rewrite <- Hk0. auto.
  - apply dict_loop_Raise in Hloop; [| reflexivity].
    destruct Hloop as (key & value_ & Hin & Hfind).
    apply find_skey_Raise in Hfind as (c & nkey & xv & _ & _ & _ & ->).
    right. exists key. split; [| reflexivity].
    change key with (fst (key, value_)). now apply in_map.
Qed.

(** [{"a": int, str: int}] on [{1: 2}]: neither key schema returns on [1],
    and ["a"] is reported missing. *)
Lemma unmatched_required_key_instance :
  (exists ks, Some [SLit (AStr "a"); SType TStr] = Some ks
              /\ In (SLit (AStr "a")) ks)
  \/ (exists key, In key (keys [(VInt 1, VInt 2)])
                  /\ @None (list value) = Some [key]).
Proof.
  refine (@unmatched_required_key_fails
            [(SLit (AStr "a"), SType TInt); (SType TStr, SType TInt)]
            None (Some true) [(VInt 1, VInt 2)]
            (SLit (AStr "a")) (SType TInt) _ _ _).
  - now left.
  - reflexivity.
  - intros key nkey [<- | []]. discriminate.
Defined.

(** ** The keys of the output *)

Lemma py_eq_atom_l a v :
  py_eq (VAtom a) v = true -> exists b, v = VAtom b /\ atom_eq a b = true.
Proof. destruct v; cbn; try discriminate. eauto. Qed.

Lemma py_eq_atom_r v b :
  py_eq v (VAtom b) = true -> exists c, v = VAtom c /\ atom_eq c b = true.
Proof. destruct v; cbn; try discriminate. eauto. Qed.

Lemma dict_mem_set_mono k d k' v :
  dict_mem k d = true -> dict_mem k (dict_set d k' v) = true.
Proof.
  induction d as [| [k0 v0] r IH]; cbn; [discriminate |].
  destruct (py_eq k0 k'); cbn; [auto |].
  destruct (py_eq k0 k); cbn; auto.
Qed.

(** After [d[nkey] = v], a literal equal to [nkey] is a key of [d]. *)
Lemma dict_mem_set_atom a d nkey v :
  py_eq (VAtom a) nkey = true ->
  dict_mem (VAtom a) (dict_set d nkey v) = true.
Proof.
  intro H. apply py_eq_atom_l in H as (b & -> & Hab).
  induction d as [| [k0 v0] r IH]; cbn.
  - now rewrite atom_eq_sym, Hab.
  - destruct (py_eq k0 (VAtom b)) eqn:Hk; cbn.
    + apply py_eq_atom_r in Hk as (c & -> & Hcb). cbn.
      rewrite atom_eq_sym in Hab.
      now rewrite (atom_eq_trans _ _ _ Hcb Hab).
    + rewrite IH. apply orb_true_r.
Qed.


Lemma apply_defaults_mono k new l :
  dict_mem k new = true -> dict_mem k (apply_defaults new l) = true.
Proof.
  revert new. induction l as [| en r IH]; intro new; cbn; [auto |].
  destruct (en_skey en) as [| | | | | | | s' e' w' [d |] | |]; auto.
  intro H. apply IH. now apply dict_mem_set_mono.
Qed.

Lemma apply_defaults_has new l en s' e' w' d :
  In en l -> en_skey en = SOptional s' e' w' (Some d) ->
  dict_mem (VAtom (key d)) (apply_defaults new l) = true.
Proof.
  revert new. induction l as [| en0 r IH]; intro new; cbn; [tauto |].
  intros [-> | Hin] Hk.
  - rewrite Hk. apply apply_defaults_mono. apply dict_mem_set_atom.
    cbn. apply atom_eq_refl.
  - destruct (en_skey en0) as [| | | | | | | s0 e0 w0 [d0 |] | |]; eauto.
Qed.


(** A key schema that stands for a literal returns only the input keys
    equal to the literal, unchanged. *)
Lemma literal_key_accepts k a e w key_ nkey :
  literal_key k = Some a ->
  Schema.validate k e w key_ = Return nkey ->
  nkey = key_ /\ py_eq (VAtom a) key_ = true.
Proof.
  assert (Hlit : forall e0 w0,
             Schema.validate (SLit a) e0 w0 key_ = Return nkey ->
             nkey = key_ /\ py_eq (VAtom a) key_ = true).
  { intros e0 w0. cbn [Schema.validate]. unfold validate_comparable.
    destruct (py_eq (VAtom a) key_) eqn:Heq; [| discriminate].
    intros [= <-]. auto. }
  destruct k as [a0 | | | | | | | s' e' w' d | |]; cbn [literal_key];
    try discriminate.
  - intros [= ->]. apply Hlit.
  - destruct s' as [a0 | | | | | | | | |]; try discriminate.
    intros [= ->] Hv. cbn [Schema.validate] in Hv.
    apply validate_validator_Return in Hv. exact (Hlit e' w' Hv).
Qed.

Section OutputKeys.
Variable e : option string.
Variable w : option bool.
Variable items : list (sdesc * sdesc).

Let rec := fun s => Schema.validate s e w.
Let sorted_skeys := sorted_skeys_of (entries rec items).

Lemma dict_loop_covered_in_new data st st' :
  covered_in_new (entries rec items) st ->
  dict_loop e sorted_skeys st data = Return st' ->
  covered_in_new (entries rec items) st'.
Proof.
  revert st. induction data as [| [key_ value_] r IH]; intros st Hst;
    cbn [dict_loop].
  - now intros [= <-].
  - destruct (dict_step e sorted_skeys st (key_, value_)) as [st1 | |]
      eqn:Hstep; cbn [bind]; try discriminate.
    apply IH.
    apply dict_step_Return in Hstep
      as [-> | (en & nkey & nvalue & He & Hk & _ & Hn & Hc)]; [exact Hst |].
    intros en1 a Hen1 Hlit Hcov. rewrite Hn.
    apply covered_In in Hcov. rewrite Hc in Hcov.
    assert (He' : In en (entries rec items)).
    { unfold sorted_skeys, sorted_skeys_of in He.
      now rewrite sorted_In in He. }
    destruct Hcov as [Hidx | Hold].
    + assert (en = en1) by (eapply entries_from_index_inj; eauto).
      subst en1.
      destruct (entries_from_entry_of rec 0 items en He') as [Ek _].
      rewrite Ek in Hk.
      destruct (literal_key_accepts _ _ _ _ Hlit Hk) as [-> Heq].
      now apply dict_mem_set_atom.
    + apply dict_mem_set_mono. apply (Hst en1 a Hen1 Hlit).
      now apply covered_In.
Qed.

Lemma dict_finish_Return data st v :
  dict_finish e w (entries rec items) data st = Return v ->
  (forall en, In en (entries rec items) ->
              is_Optional (en_skey en) = false ->
              covered (st_coverage st) en = true)
  /\ (not_allow w = true -> List.length (st_new st) = List.length data)
  /\ v = VDict (apply_defaults (st_new st)
                  (filter (fun en => has_default en
                                     && negb (covered (st_coverage st) en))
                          (entries rec items))).
Proof.
  unfold dict_finish.
  destruct (forallb _ _) eqn:Hall; cbn [negb]; [| discriminate].
  destruct (not_allow w) eqn:Hw; cbn [andb].
  - destruct (List.length (st_new st) =? List.length data)%nat eqn:Hlen;
      cbn [negb]; [| discriminate].
    intros [= <-]. repeat split.
    + intros en Hin Hopt. rewrite forallb_forall in Hall. apply Hall.
      apply filter_In. split; [exact Hin | now rewrite Hopt].
    + intros _. now apply Nat.eqb_eq.
  - intros [= <-]. repeat split.
    + intros en Hin Hopt. rewrite forallb_forall in Hall. apply Hall.
      apply filter_In. split; [exact Hin | now rewrite Hopt].
    + discriminate.
Qed.

Lemma validate_SDict_Return data v :
  Schema.validate (SDict items) e w (VDict data) = Return v ->
  exists st,
    dict_loop e sorted_skeys (mkState [] None []) data = Return st
    /\ dict_finish e w (entries rec items) data st = Return v.
Proof.
  rewrite validate_SDict. unfold validate_dict.
  change (validate_type TDict e (VDict data))
    with (@Return sdesc value (VDict data)).
  cbn [bind]. fold rec. fold sorted_skeys.
  destruct (dict_loop e sorted_skeys (mkState [] None []) data)
    as [st | |]; cbn [bind]; try discriminate.
  intro H. exists st. auto.
Qed.
End OutputKeys.

(** When a schema dict returns, its result is a dict that has every literal
    key of the schema as a key, and the key of every [Optional] literal
    with a default, whether the input had it or the default supplied it. *)
Theorem output_has_required_and_default_keys
    (items : list (sdesc * sdesc)) (e : option string) (w : option bool)
    (data : dict) (v : value) :
  Schema.validate (SDict items) e w (VDict data) = Return v ->
  exists out,
    v = VDict out
    /\ (forall a sv, In (SLit a, sv) items -> dict_mem (VAtom a) out = true)
    /\ (forall e' w' d sv,
           In (SOptional (SLit (key d)) e' w' (Some d), sv) items ->
           dict_mem (VAtom (key d)) out = true).
Proof.
  intro Hv. apply validate_SDict_Return in Hv as (st & Hloop & Hfin).
  apply dict_loop_covered_in_new in Hloop;
    [| intros en a _ _ Hc; discriminate Hc].
  apply dict_finish_Return in Hfin as (Hreq & _ & ->).
  eexists. split; [reflexivity |]. split.
  - intros a sv Hin.
    destruct (entries_from_In (fun s => Schema.validate s e w) 0 items _ _ Hin)
      as (en & Hen & Hk & _).
    apply apply_defaults_mono. apply (Hloop en a Hen).
    + now rewrite Hk.
    + apply Hreq; [exact Hen | now rewrite Hk].
  - intros e' w' d sv Hin.
    destruct (entries_from_In (fun s => Schema.validate s e w) 0 items _ _ Hin)
      as (en & Hen & Hk & _).
    destruct (covered (st_coverage st) en) eqn:Hc.
    + apply apply_defaults_mono. apply (Hloop en (key d) Hen).
      * now rewrite Hk.
      * exact Hc.
    + eapply apply_defaults_has; [| exact Hk].
      apply filter_In. split; [exact Hen |].
      unfold has_default. now rewrite Hk, Hc.
Qed.

(** [{"a": int, Optional("b", default=0): int}] on [{"a": 1, "z": 9}]. *)
Lemma output_keys_instance :
  exists out,
    VDict [(VStr "a", VInt 1); (VStr "b", VInt 0)] = VDict out
    /\ (forall a sv, In (SLit a, sv)
                        [(SLit (AStr "a"), SType TInt);
                         (optional_b, SType TInt)] ->
                     dict_mem (VAtom a) out = true)
    /\ (forall e' w' d sv,
           In (SOptional (SLit (key d)) e' w' (Some d), sv)
              [(SLit (AStr "a"), SType TInt); (optional_b, SType TInt)] ->
           dict_mem (VAtom (key d)) out = true).
Proof.
  exact (@output_has_required_and_default_keys
           [(SLit (AStr "a"), SType TInt); (optional_b, SType TInt)]
           None (Some true) [(VStr "a", VInt 1); (VStr "z", VInt 9)]
           (VDict [(VStr "a", VInt 1); (VStr "b", VInt 0)]) eq_refl).
Defined.



(** ** The order in which the schema keys are tried *)

Lemma Qle_bool_false (a b : Q) : Qle_bool a b = false -> Qlt b a.
Proof.
  intro H. apply Qnot_le_lt. intro Hle. apply Qle_bool_iff in Hle.
  congruence.
Qed.

Lemma insert_priority_Permutation x l :
  Permutation (insert_sorted Qle_bool entry_priority x l) (x :: l).
Proof.
  induction l as [| y r IH]; cbn; [reflexivity |].
  destruct (Qle_bool (entry_priority x) (entry_priority y)); [reflexivity |].
  rewrite IH. apply perm_swap.
Qed.

Lemma insert_priority_sorted x l :
  StronglySorted priority_le l ->
  StronglySorted priority_le (insert_sorted Qle_bool entry_priority x l).
Proof.
  induction 1 as [| y r Hr IH Hy]; cbn.
  - constructor; constructor.
  - destruct (Qle_bool (entry_priority x) (entry_priority y)) eqn:Hxy.
    + apply Qle_bool_iff in Hxy.
      constructor; [constructor; assumption |].
      constructor; [exact Hxy |].
      eapply Forall_impl; [| exact Hy].
      intros z Hz. unfold priority_le in *. eapply Qle_trans; eauto.
    + apply Qle_bool_false in Hxy. constructor; [exact IH |].
      rewrite Forall_forall in *. intros z Hz.
      apply insert_sorted_In in Hz as [-> | Hz]; [| auto].
      unfold priority_le. now apply Qlt_le_weak.
Qed.

Lemma insert_priority_stable q x l :
  with_priority q (insert_sorted Qle_bool entry_priority x l)
  = with_priority q (x :: l).
Proof.
  unfold with_priority. induction l as [| y r IH]; [reflexivity |].
  cbn [insert_sorted].
  destruct (Qle_bool (entry_priority x) (entry_priority y)) eqn:Hxy;
    [reflexivity |].
  cbn [filter] in *. rewrite IH.
  destruct (Qeq_bool (entry_priority x) q) eqn:Hx; [| reflexivity].
  destruct (Qeq_bool (entry_priority y) q) eqn:Hy; [| reflexivity].
  apply Qeq_bool_iff in Hx, Hy. apply Qle_bool_false in Hxy.
  rewrite Hx, Hy in Hxy. now apply Qlt_irrefl in Hxy.
Qed.

(** [sorted_skeys] holds every key of the schema dict once, in an order of
    non-decreasing priority, and keys of the same priority keep the order
    they have in the dict. *)
Theorem sorted_skeys_is_a_stable_sort (s : list entry) :
  Permutation (sorted_skeys_of s) s
  /\ StronglySorted priority_le (sorted_skeys_of s)
  /\ forall q, with_priority q (sorted_skeys_of s) = with_priority q s.
Proof.
  unfold sorted_skeys_of.
  change (fun en => _dict_key_priority (en_skey en)) with entry_priority.
  induction s as [| x r (IHp & IHs & IHq)]; cbn [sorted fold_right].
  - repeat split; constructor.
  - fold (sorted Qle_bool entry_priority r). repeat split.
    + rewrite insert_priority_Permutation. now constructor.
    + now apply insert_priority_sorted.
    + intro q. rewrite insert_priority_stable. unfold with_priority in *.
      cbn [filter]. now rewrite IHq.
Qed.

(** ** [uniq] *)

Lemma str_in_In x seen : str_in x seen = true <-> In x seen.
Proof.
  unfold str_in. rewrite existsb_exists. split.
  - intros (y & Hin & Heq). apply String.eqb_eq in Heq. now subst.
  - intro H. exists x. split; [exact H | apply String.eqb_refl].
Qed.

Lemma uniq_from_In x seen l :
  In x (uniq_from seen l) <-> In x l /\ ~ In x seen.
Proof.
  revert seen. induction l as [| y r IH]; intro seen; cbn; [tauto |].
  destruct (str_in y seen) eqn:Hy.
  - apply str_in_In in Hy. rewrite IH. split.
    + intros [H1 H2]. auto.
    + intros [[<- | H1] H2]; [contradiction | auto].
  - assert (Hn : ~ In y seen) by (rewrite <- str_in_In; congruence).
    cbn. rewrite IH. cbn. split.
    + intros [<- | [H1 H2]]; [auto | tauto].
    + intros [[<- | H1] H2]; [now left |].
      destruct (string_dec y x) as [<- | Hne]; [now left | right; tauto].
Qed.

Lemma uniq_from_NoDup seen l : NoDup (uniq_from seen l).
Proof.
  revert seen. induction l as [| y r IH]; intro seen; cbn; [constructor |].
  destruct (str_in y seen); [apply IH |].
  constructor; [| apply IH]. rewrite uniq_from_In. cbn. tauto.
Qed.

Lemma uniq_from_fixed seen l :
  NoDup l -> (forall x, In x l -> ~ In x seen) -> uniq_from seen l = l.
Proof.
  intro H. revert seen. induction H as [| y r Hy _ IH]; intros seen Hs; cbn;
    [reflexivity |].
  destruct (str_in y seen) eqn:Hin.
  - apply str_in_In in Hin. exfalso. apply (Hs y); [now left | exact Hin].
  - f_equal. apply IH. intros x Hx [<- | Hseen]; [tauto |].
    apply (Hs x); [now right | exact Hseen].
Qed.

(** [uniq] returns a list without repetition that has exactly the messages
    of its argument, and leaves such a list as it is: [uniq(uniq(l))] is
    [uniq(l)]. *)
Theorem uniq_has_each_message_once (l : list string) :
  NoDup (uniq l)
  /\ (forall x, In x (uniq l) <-> In x l)
  /\ uniq (uniq l) = uniq l.
Proof.
  unfold uniq. repeat split.
  - apply uniq_from_NoDup.
  - intro H. now apply uniq_from_In in H.
  - intro H. apply uniq_from_In. cbn. tauto.
  - apply uniq_from_fixed; [apply uniq_from_NoDup | cbn; tauto].
Qed.

(** ** A container with no alternative *)

(** [Schema([])] and [Schema(())] return on the empty container of their
    kind, and on nothing else. *)
Theorem empty_iterable_accepts_only_empty
    (c : container) (e : option string) (w : option bool) (data v : value) :
  Schema.validate (SIter c []) e w data = Return v
  <-> data = container_value c [] /\ v = container_value c [].
Proof.
  rewrite validate_SIter. split.
  - destruct (validate_type (container_type c) e data) as [d' | |] eqn:Ht;
      cbn [bind]; try discriminate.
    apply validate_type_Return in Ht as [-> Hi].
    destruct (isinstance_container c data Hi) as [l ->].
    destruct c, l as [| d r]; cbn; try discriminate;
      intros [= <-]; auto.
  - intros [-> ->]. destruct c; reflexivity.
Qed.

Lemma empty_iterable_instance :
  Schema.validate (SIter CList []) None (Some true) (VList [])
  = Return (VList []).
Proof.
  apply (proj2 (empty_iterable_accepts_only_empty CList None (Some true)
                  (VList []) (VList []))).
  split; reflexivity.
Defined.

Lemma uniq_instance :
  NoDup (uniq ["a"; "b"; "a"])
  /\ (forall x, In x (uniq ["a"; "b"; "a"]) <-> In x ["a"; "b"; "a"])
  /\ uniq (uniq ["a"; "b"; "a"]) = uniq ["a"; "b"; "a"].
Proof. exact (uniq_has_each_message_once ["a"; "b"; "a"]). Defined.

(** ** The error override of a combinator *)

Lemma And_loop_Raise (f : sdesc -> value -> result value) args data x :
  And_loop (map f args) data = Raise x ->
  exists a d, In a args /\ f a d = Raise x.
Proof.
  revert data. induction args as [| a r IH]; intro data; cbn;
    [discriminate |].
  destruct (f a data) as [d' | x1 |] eqn:Ha; cbn [bind]; try discriminate.
  - intro H. apply IH in H as (a' & d & Hin & Hd). exists a', d. auto.
  - intros [= <-]. exists a, data. auto.
Qed.

(** Every [SchemaError] that [And( *args, **kw).validate] or
    [Or( *args, **kw).validate] raises has the combinator's own [error]
    ([None] when it was not given) as the first entry of its custom
    chain. *)
Theorem combinator_error_heads_every_failure
    (args : list sdesc) (kw : kwargs) (data : value) (x : SchemaError) :
  And.validate args kw data = Raise x \/ Or.validate args kw data = Raise x ->
  exists rest, errors x = kw_error kw :: rest.
Proof.
  intros [H | H].
  - apply And_loop_Raise in H as (a & d & _ & Hd).
    eapply validate_errors_head; eauto.
  - eapply Or_loop_Raise_errors; eauto.
Qed.

(** [And(int, error="no")] on ["s"]. *)
Lemma combinator_error_instance :
  exists rest, [Some "no"] = kw_error (KwError (Some "no")) :: rest.
Proof.
  exact (@combinator_error_heads_every_failure [SType TInt]
           (KwError (Some "no")) (VStr "s")
           (mkSchemaError [Some "'s' should be instance of 'int'"]
              [Some "no"] None None None)
           (or_introl eq_refl)).
Defined.

(** ** The empty input, whatever the order of the keys *)

(** Two keys equal to the same literal are equal. *)
Lemma py_eq_through_atom k0 a k :
  py_eq k0 (VAtom a) = true -> py_eq (VAtom a) k = true -> py_eq k0 k = true.
Proof.
  intros H1 H2. apply py_eq_atom_r in H1 as (c & -> & Hca).
  apply py_eq_atom_l in H2 as (b & -> & Hab).
  cbn. eapply atom_eq_trans; eauto.
Qed.

Lemma py_eq_to_atom k0 a k :
  py_eq k0 k = true -> py_eq (VAtom a) k = true -> py_eq k0 (VAtom a) = true.
Proof.
  intros H1 H2. apply py_eq_atom_l in H2 as (b & -> & Hab).
  apply py_eq_atom_r in H1 as (c & -> & Hcb).
  cbn. rewrite atom_eq_sym in Hab. eapply atom_eq_trans; eauto.
Qed.

(** [d[a] = v] followed by [d[k]]. *)
Lemma dict_get_set a d k v :
  dict_get k (dict_set d (VAtom a) v)
  = if py_eq (VAtom a) k then Some v else dict_get k d.
Proof.
  induction d as [| [k0 v0] r IH]; cbn [dict_set dict_get].
  - reflexivity.
  - destruct (py_eq k0 (VAtom a)) eqn:H0; cbn [dict_get].
    + destruct (py_eq (VAtom a) k) eqn:Ha.
      * now rewrite (py_eq_through_atom _ _ _ H0 Ha).
      * destruct (py_eq k0 k) eqn:Hk; [| reflexivity].
        apply py_eq_atom_r in H0 as (c & -> & Hca).
        apply py_eq_atom_l in Hk as (b & -> & Hcb).
        cbn in Ha. rewrite atom_eq_sym in Hca.
        rewrite (atom_eq_trans _ _ _ Hca Hcb) in Ha. discriminate.
    + rewrite IH. destruct (py_eq k0 k) eqn:Hk; [| reflexivity].
      destruct (py_eq (VAtom a) k) eqn:Ha; [| reflexivity].
      rewrite (py_eq_to_atom _ _ _ Hk Ha) in H0. discriminate.
Qed.

Lemma dict_mem_get k d : dict_mem k d = true <-> dict_get k d <> None.
Proof.
  induction d as [| [k0 v0] r IH]; cbn.
  - split; [discriminate | congruence].
  - destruct (py_eq k0 k); cbn; [split; [discriminate | reflexivity] |].
    exact IH.
Qed.

Lemma dict_mem_set_iff a d k v :
  dict_mem k (dict_set d (VAtom a) v) = true
  <-> dict_mem k d = true \/ py_eq (VAtom a) k = true.
Proof.
  rewrite !dict_mem_get, dict_get_set.
  destruct (py_eq (VAtom a) k).
  - split; [auto | discriminate].
  - split; [auto | intros [H | H]; [exact H | discriminate H]].
Qed.

Lemma has_default_key_cons items k d it :
  has_default_key (it :: items) k d
  <-> (exists s' e' w' sv, it = (SOptional s' e' w' (Some d), sv)
                           /\ py_eq (VAtom (key d)) k = true)
      \/ has_default_key items k d.
Proof.
  unfold has_default_key. cbn [In]. split.
  - intros (s' & e' & w' & sv & [Hit | Hin] & Hk).
    + left. exists s', e', w', sv. auto.
    + right. exists s', e', w', sv. auto.
  - intros [(s' & e' & w' & sv & Hit & Hk) | (s' & e' & w' & sv & Hin & Hk)];
      exists s', e', w', sv; auto.
Qed.

(** The keys after the defaults are the keys before them and the keys of
    the defaults. *)
Lemma item_defaults_mem items new k :
  dict_mem k (item_defaults new items) = true
  <-> dict_mem k new = true \/ exists d, has_default_key items k d.
Proof.
  revert new. induction items as [| [sk sv] r IH]; intro new.
  - cbn. split; [auto |].
    intros [H | [d (s' & e' & w' & sv & [] & _)]]; exact H.
  - assert (Hskip : dict_mem k (item_defaults new r) = true
                    <-> dict_mem k new = true
                        \/ exists d, has_default_key r k d) by apply IH.
    assert (Hnone : (forall s' e' w' d, sk <> SOptional s' e' w' (Some d)) ->
                    ((exists d, has_default_key ((sk, sv) :: r) k d)
                     <-> exists d, has_default_key r k d)).
    { intro Hsk. split; intros [d Hd]; exists d.
      - apply has_default_key_cons in Hd
          as [(s' & e' & w' & sv' & [= -> _] & _) | Hd]; [| exact Hd].
        now destruct (Hsk s' e' w' d).
      - apply has_default_key_cons. now right. }
    destruct sk as [| | | | | | | s' e' w' [d |] | |]; cbn [item_defaults];
      try (rewrite Hskip, Hnone; [reflexivity | discriminate]).
    rewrite IH, dict_mem_set_iff. split.
    + intros [[H | H] | [d' Hd']].
      * now left.
      * right. exists d. apply has_default_key_cons. left.
        exists s', e', w', sv. auto.
      * right. exists d'. apply has_default_key_cons. now right.
    + intros [H | [d' Hd']]; [auto |].
      apply has_default_key_cons in Hd'
        as [(s0 & e0 & w0 & sv0 & [= _ _ _ <- _] & Hk) | Hd']; [auto |].
      right. now exists d'.
Qed.

(** A key whose defaults all agree keeps that default once one of them was
    set. *)
Lemma item_defaults_get_kept items new k v :
  (forall d, has_default_key items k d -> default d = v) ->
  dict_get k new = Some v ->
  dict_get k (item_defaults new items) = Some v.
Proof.
  revert new. induction items as [| [sk sv] r IH]; intros new Hall Hnew;
    [exact Hnew |].
  assert (Hr : forall d, has_default_key r k d -> default d = v).
  { intros d Hd. apply Hall. apply has_default_key_cons. now right. }
  destruct sk as [| | | | | | | s' e' w' [d |] | |]; cbn [item_defaults];
    try (apply IH; assumption).
  apply IH; [exact Hr |]. rewrite dict_get_set.
  destruct (py_eq (VAtom (key d)) k) eqn:Hk; [| exact Hnew].
  f_equal. apply Hall. apply has_default_key_cons. left.
  exists s', e', w', sv. auto.
Qed.

Lemma item_defaults_get items new k v :
  (exists d, has_default_key items k d) ->
  (forall d, has_default_key items k d -> default d = v) ->
  dict_get k (item_defaults new items) = Some v.
Proof.
  revert new. induction items as [| [sk sv] r IH]; intros new [d0 Hd0] Hall.
  - destruct Hd0 as (s' & e' & w' & sv' & [] & _).
  - assert (Hr : forall d, has_default_key r k d -> default d = v).
    { intros d Hd. apply Hall. apply has_default_key_cons. now right. }
    apply has_default_key_cons in Hd0
      as [(s0 & e0 & w0 & sv0 & [= -> ->] & Hk) | Hd0].
    + cbn [item_defaults].
      apply item_defaults_get_kept; [exact Hr |].
      rewrite dict_get_set, Hk. f_equal. apply Hall.
      apply has_default_key_cons. left. exists s0, e0, w0, sv0. auto.
    + destruct sk as [| | | | | | | s' e' w' [d |] | |];
        cbn [item_defaults]; apply IH; eauto.
Qed.

(** On the empty dict, whatever the wrong-key policy, no key or value
    schema being consulted: a schema dict whose keys are all [Optional]
    returns a dict whose keys are the keys of its defaults and nothing
    else, each key holding the default given for it when the defaults given
    for that key agree; and a schema dict with a key that is not
    [Optional] raises a [SchemaError] with one auto message, the error
    override as its custom message, and as [missing_keys] the keys that are
    not [Optional], in some order. *)
Theorem empty_input_returns_defaults_or_misses_required
    (items : list (sdesc * sdesc)) (e : option string) (w : option bool) :
  match required_keys items with
  | [] =>
      exists out,
        Schema.validate (SDict items) e w (VDict []) = Return (VDict out)
        /\ (forall k, dict_mem k out = true
                      <-> exists d, has_default_key items k d)
        /\ (forall k v,
               (exists d, has_default_key items k d) ->
               (forall d, has_default_key items k d -> default d = v) ->
               dict_get k out = Some v)
  | _ :: _ =>
      exists x ks msg,
        Schema.validate (SDict items) e w (VDict []) = Raise x
        /\ autos x = [Some msg] /\ errors x = [e]
        /\ missing_keys x = Some ks
        /\ Permutation ks (required_keys items)
        /\ invalid_keys x = None /\ wrong_keys x = None
  end.
Proof.
  rewrite validate_SDict_empty_input.
  destruct (required_keys items) as [| k0 r] eqn:Hreq.
  - exists (item_defaults [] items). split; [reflexivity |]. split.
    + intro k. rewrite item_defaults_mem. cbn [dict_mem]. split.
      * intros [H | H]; [discriminate H | exact H].
      * auto.
    + intros k v Hex Hall. now apply item_defaults_get.
  - do 3 eexists. repeat split; reflexivity.
Qed.

(** [{Optional("b", default=0): int}] on [{}]: the result holds [0] under
    ["b"]. *)
Lemma empty_input_instance :
  exists out,
    Schema.validate (SDict [(optional_b, SType TInt)]) None (Some true)
      (VDict [])
    = Return (VDict out)
    /\ dict_get (VStr "b") out = Some (VInt 0).
Proof.
  destruct (@empty_input_returns_defaults_or_misses_required
              [(optional_b, SType TInt)] None (Some true))
    as (out & Hv & _ & Hget).
  exists out. split; [exact Hv |].
  apply Hget.
  - exists (mkDefault (VInt 0) (AStr "b")).
    exists (SLit (AStr "b")), None, (Some true), (SType TInt).
    split; [now left | reflexivity].
  - intros d (s' & e' & w' & sv & [Hin | []] & _).
    now injection Hin as _ _ _ <- _.
Defined.
